(** * pocket-cli: the authorization flow and the item commands of
      cmd/pocket/main.go, as a shallow embedding.

    The program is a sequence of calls into the operating system, the
    remote service and the command-line library.  Those collaborators
    are not part of main.go: they are gathered in a record [Env] of
    oracles, every definition below is a function of it, and each call
    leaves an [event] in the log of the run.  The functions of main.go
    keep their names. *)

From Stdlib Require Import ZArith NArith Ascii String List Lia Bool.
From stdpp Require Import gmap strings list fin_maps sorting.
Import ListNotations.

Local Open Scope string_scope.
Local Open Scope list_scope.
Local Open Scope Z_scope.

(** ** Values *)

(** Go strings are byte sequences: [string] is a list of 8-bit [ascii]. *)
Definition nl : string := String "010"%char EmptyString.
Definition cr : ascii := "013"%char.
Definition lf : ascii := "010"%char.

(** A Go [error] value, by its message. *)
Inductive error : Type := mkError (msg : string).

Definition error_msg (e : error) : string := let 'mkError m := e in m.

(** [errors.New]. *)
Definition errors_New (msg : string) : error := mkError msg.

(** A [(T, error)] pair of which exactly one side is set. *)
Inductive result (A : Type) : Type :=
| Ok (a : A)
| Err (e : error).
Arguments Ok {A} a.
Arguments Err {A} e.

(** auth.RequestToken and auth.Authorization (go-pocket). *)
Record RequestToken := { Code : string }.
Record Authorization := { AccessToken : string; Username : string }.

(** [&auth.Authorization{}]: both fields are the zero string. *)
Definition Authorization_zero : Authorization :=
  {| AccessToken := EmptyString; Username := EmptyString |}.

(** api.Action as built by api.NewArchiveAction, api.AddOption with the
    fields main.go sets, and the *api.Client made by api.NewClient. *)
Record Action := { ActionName : string; ItemID : Z }.
Record AddOption := { URL : string; Title : string; Tags : string }.
Record Client := { ConsumerKey : string; ClientAccessToken : string }.

Definition api_NewArchiveAction (itemID : Z) : Action :=
  {| ActionName := "archive"; ItemID := itemID |}.
Definition api_NewClient (consumerKey accessToken : string) : Client :=
  {| ConsumerKey := consumerKey; ClientAccessToken := accessToken |}.

(** What a handler has put on its [http.ResponseWriter]. *)
Record response := {
  status : Z;
  content_type : string;
  body : string
}.

(** A file: its bytes and its permission bits. *)
Record file := { data : string; perm : N }.

(** ** The log of a run *)

Inductive event : Type :=
| EvOpen (path : string) (err : option error)           (* os.Open *)
| EvDecode (path : string) (err : option error)         (* json Decoder.Decode *)
| EvCreate (path : string) (err : option error)         (* os.Create *)
| EvEncode (path : string) (bytes : string) (err : option error) (* json Encoder.Encode *)
| EvClose (path : string)                               (* File.Close *)
| EvReadFile (path : string) (err : option error)       (* ioutil.ReadFile *)
| EvReadLine (line : string) (isPrefix : bool) (err : option error) (* bufio ReadLine on stdin *)
| EvWriteFile (path : string) (bytes : string) (mode : N) (err : option error) (* ioutil.WriteFile *)
| EvLog (msg : string)                                  (* log.Print, log.Printf, log.Println *)
| EvStdout (line : string)                              (* fmt.Println *)
| EvStderr (line : string)                              (* fmt.Fprintln(os.Stderr, ...) *)
| EvNewServer (url : string)                            (* httptest.NewServer: the listener is bound *)
| EvServerClose                                         (* ts.Close *)
| EvObtainRequestToken (consumerKey redirectURL : string) (r : result RequestToken)
| EvGenerateAuthorizationURL (requestToken : RequestToken) (redirectURL url : string)
| EvServe (path : string) (resp : response)             (* the handler answered a request *)
| EvRecv                                                (* [<-ch] returned *)
| EvObtainAccessToken (consumerKey : string) (requestToken : RequestToken) (r : result Authorization)
| EvModify (c : Client) (a : Action) (res : string) (err : option error)  (* client.Modify *)
| EvPrintModify (res : string) (err : option error)     (* fmt.Println(res, err) *)
| EvAdd (c : Client) (o : AddOption) (err : option error). (* client.Add *)

(** ** The collaborators *)

Record Env := {
  (** [configDir], set by [init], and [filepath.Join] under it. *)
  configDir : string;
  filepath_Join : string -> string -> string;
  (** The operating system: a refusal to open, read or create a path
      (permissions, a directory in the way, ...), a write that fails
      after the file was opened, the process umask, and the bytes
      waiting on standard input. *)
  open_error : string -> option error;
  create_error : string -> option error;
  write_error : string -> option error;
  umask : N;
  stdin : string;
  (** The width of [int] on the platform. *)
  intSize : Z;
  (** encoding/json on an [*auth.Authorization]: the bytes [Encode]
      writes, and what [Decode] leaves in the pointee (which it fills in
      place) together with its error. *)
  json_encode : Authorization -> string;
  json_decode : string -> Authorization -> Authorization * option error;
  (** httptest: the URL of the listener once bound. *)
  server_URL : string;
  (** go-pocket's auth package. *)
  auth_ObtainRequestToken : string -> string -> result RequestToken;
  auth_GenerateAuthorizationURL : RequestToken -> string -> string;
  auth_ObtainAccessToken : string -> RequestToken -> result Authorization;
  (** go-pocket's api client: the printed form of the *ModifyResult and
      the error of Modify, and the error of Add. *)
  client_Modify : Client -> Action -> string * option error;
  client_Add : Client -> AddOption -> option error
}.

(** ** The state of a run *)

Record world := {
  files : gmap string file;
  (** Paths of the HTTP requests that will reach the callback listener,
      in the order in which it serves them. *)
  requests : list string
}.

Definition set_files (f : gmap string file) (w : world) : world :=
  {| files := f; requests := requests w |}.
Definition set_requests (r : list string) (w : world) : world :=
  {| files := files w; requests := r |}.

(** How a Go computation ends: it returns, panics, calls [os.Exit], or
    blocks for ever on a channel. *)
Inductive outcome (A : Type) : Type :=
| Ret (a : A)
| Panic (e : error)
| Exit (code : Z)
| Hang.
Arguments Ret {A} a.
Arguments Panic {A} e.
Arguments Exit {A} code.
Arguments Hang {A}.

(** A computation: from a world to its outcome, the world it leaves and
    the events it emitted, oldest first. *)
Definition M (A : Type) : Type := world -> outcome A * world * list event.

Definition ret {A} (a : A) : M A := fun w => (Ret a, w, []).

Definition bind {A B} (m : M A) (k : A -> M B) : M B :=
  fun w =>
    match m w with
    | (Ret a, w1, ev1) =>
        let '(o, w2, ev2) := k a w1 in (o, w2, ev1 ++ ev2)
    | (Panic e, w1, ev1) => (Panic e, w1, ev1)
    | (Exit c, w1, ev1) => (Exit c, w1, ev1)
    | (Hang, w1, ev1) => (Hang, w1, ev1)
    end.

Declare Scope go_scope.
Delimit Scope go_scope with go.
Notation "'let!' x := m 'in' k" := (bind m (fun x => k))
  (at level 10, x pattern, m at level 200, k at level 200) : go_scope.
Notation "'do!' m 'in' k" := (bind m (fun _ => k))
  (at level 10, m at level 200, k at level 200) : go_scope.
Local Open Scope go_scope.

Definition emit (e : event) : M unit := fun w => (Ret tt, w, [e]).
Definition panic {A} (e : error) : M A := fun w => (Panic e, w, []).
Definition os_Exit {A} (code : Z) : M A := fun w => (Exit code, w, []).

(** [defer d] before the body [m]: [d] runs when [m] returns and when it
    panics, not when the process exits or the goroutine never gets out
    of [m]. *)
Definition defer {A} (d : M unit) (m : M A) : M A :=
  fun w =>
    match m w with
    | (Ret a, w1, ev1) =>
        let '(o, w2, ev2) := d w1 in
        (match o with Ret _ => Ret a | Panic e => Panic e | Exit c => Exit c | Hang => Hang end,
         w2, ev1 ++ ev2)
    | (Panic e, w1, ev1) =>
        let '(o, w2, ev2) := d w1 in
        (match o with Ret _ => Panic e | Panic e' => Panic e' | Exit c => Exit c | Hang => Hang end,
         w2, ev1 ++ ev2)
    | (Exit c, w1, ev1) => (Exit c, w1, ev1)
    | (Hang, w1, ev1) => (Hang, w1, ev1)
    end.

Definition outcome_of {A} (r : outcome A * world * list event) : outcome A := fst (fst r).
Definition world_of {A} (r : outcome A * world * list event) : world := snd (fst r).
Definition events_of {A} (r : outcome A * world * list event) : list event := snd r.

(** ** The callback handler (main.go, lines 295-304)

    The function literal given to [http.HandlerFunc], as the sequence of
    things it does to its [ResponseWriter] and to the channel [ch]. *)

Inductive haction : Type :=
| HError (msg : string) (code : Z)      (* http.Error(w, msg, code) *)
| HSetHeader (key value : string)       (* w.Header().Set(key, value) *)
| HWrite (s : string)                   (* fmt.Fprintln(w, ...) *)
| HSend.                                (* ch <- struct{}{} *)

Definition handler (path : string) : list haction :=
  if String.eqb path "/favicon.ico" then
    [HError "Not Found" 404]
  else
    [HSetHeader "Content-Type" "text/plain";
     HWrite ("Authorized." +:+ nl);
     HSend].

(** [ch := make(chan struct{})]: no buffer size is given. *)
Definition chan_capacity : nat := 0.

Definition is_send (a : haction) : bool :=
  match a with HSend => true | _ => false end.

(** Does the handler reach a send on [ch]? *)
Definition emits_signal (acts : list haction) : bool := existsb is_send acts.

(** net/http: what the client receives.  [http.Error] sets the content
    type and the status and prints the message on a line; a first write
    without an explicit status is a 200. *)
Definition response_start : response :=
  {| status := 200; content_type := EmptyString; body := EmptyString |}.

Definition apply_haction (r : response) (a : haction) : response :=
  match a with
  | HError msg code =>
      {| status := code;
         content_type := "text/plain; charset=utf-8";
         body := body r +:+ msg +:+ nl |}
  | HSetHeader key value =>
      if String.eqb key "Content-Type"
      then {| status := status r; content_type := value; body := body r |}
      else r
  | HWrite s => {| status := status r; content_type := content_type r; body := body r +:+ s |}
  | HSend => r
  end.

Definition respond (acts : list haction) : response :=
  fold_left apply_haction acts response_start.

(** The orchestrator at [<-ch].  The channel has no buffer, so a send
    completes only together with this receive: the listener serves the
    pending requests in turn, and the first handler that sends releases
    the orchestrator.  With no such request the receive never returns. *)
Fixpoint serve_until_signal (reqs : list string) : list event * option (list string) :=
  match reqs with
  | [] => ([], None)
  | p :: rest =>
      let acts := handler p in
      if emits_signal acts then ([EvServe p (respond acts); EvRecv], Some rest)
      else
        let '(evs, pending) := serve_until_signal rest in
        (EvServe p (respond acts) :: evs, pending)
  end.

Definition chan_recv : M unit :=
  fun w =>
    match serve_until_signal (requests w) with
    | (evs, Some rest) => (Ret tt, set_requests rest w, evs)
    | (evs, None) => (Hang, set_requests [] w, evs)
    end.

Definition err_of {A} (r : result A) : option error :=
  match r with Ok _ => None | Err e => Some e end.

(** ** Bytes and numbers: the library functions main.go calls *)

(** [bytes.Index(s, "\n")] with the two slices around the separator. *)
Fixpoint cut_lf (s : string) : option (string * string) :=
  match s with
  | EmptyString => None
  | String c rest =>
      if Ascii.eqb c lf then Some (EmptyString, rest)
      else match cut_lf rest with
           | Some (before, after) => Some (String c before, after)
           | None => None
           end
  end.

(** [bytes.SplitN(s, []byte("\n"), 2)]: at most two pieces. *)
Definition bytes_SplitN_2 (s : string) : list string :=
  match cut_lf s with
  | Some (before, after) => [before; after]
  | None => [s]
  end.

(** [s[:n]], and [s[:len(s)-k]]. *)
Definition take_bytes (n : nat) (s : string) : string := substring 0 n s.
Definition chop (k : nat) (s : string) : string :=
  substring 0 (String.length s - k) s.

(** Is [s[len(s)-k]] the byte [c]? *)
Definition byte_from_end (k : nat) (c : ascii) (s : string) : bool :=
  match String.get (String.length s - k) s with
  | Some c' => Ascii.eqb c' c
  | None => false
  end.

(** bufio: the size of the buffer [bufio.NewReader] allocates. *)
Definition defaultBufSize : nat := 4096.

Inductive slice_error : Type := ErrBufferFull | EOF.

Definition slice_error_value (e : slice_error) : error :=
  match e with
  | ErrBufferFull => mkError "bufio: buffer full"
  | EOF => mkError "EOF"
  end.

(** [Reader.ReadSlice('\n')] on a fresh reader with a buffer of [size]
    bytes over a stream holding [input] and then ending: the bytes up to
    and including the first newline when it lies in the buffer; the full
    buffer when it holds no newline; what there is when the stream ends
    first. *)
Definition bufio_ReadSlice (size : nat) (input : string) : string * option slice_error :=
  match cut_lf (take_bytes size input) with
  | Some (before, _) => (before +:+ nl, None)
  | None =>
      if (size <=? String.length input)%nat
      then (take_bytes size input, Some ErrBufferFull)
      else (input, Some EOF)
  end.

(** [Reader.ReadLine]: line, isPrefix, err. *)
Definition bufio_ReadLine (size : nat) (input : string) : string * bool * option error :=
  let '(line, err) := bufio_ReadSlice size input in
  match err with
  | Some ErrBufferFull =>
      (if ((0 <? String.length line)%nat && byte_from_end 1 cr line)%bool
       then chop 1 line else line,
       true, None)
  | _ =>
      if (String.length line =? 0)%nat then
        (EmptyString, false, option_map slice_error_value err)
      else if byte_from_end 1 lf line then
        (if ((1 <? String.length line)%nat && byte_from_end 2 cr line)%bool
         then chop 2 line else chop 1 line,
         false, None)
      else (line, false, None)
  end.

(** The first line of some bytes: those before the first newline, all
    of them when there is none. *)
Definition first_line (s : string) : string :=
  match cut_lf s with
  | Some (before, _) => before
  | None => s
  end.

(** [s] without a carriage return at its end. *)
Definition without_cr (s : string) : string :=
  if ((0 <? String.length s)%nat && byte_from_end 1 cr s)%bool then chop 1 s else s.

(** The line an operator typed: the first line of the input, without
    the carriage return of a CR-LF line ending. *)
Definition typed_line (input : string) : string :=
  match cut_lf input with
  | Some (before, _) => without_cr before
  | None => input
  end.

(** [strconv.Atoi]: an optional sign and decimal digits, within the
    range of an [int] of [bits] bits. *)
Definition digit_of (c : ascii) : option Z :=
  let n := Z.of_nat (nat_of_ascii c) in
  if ((48 <=? n) && (n <=? 57))%bool then Some (n - 48) else None.

Fixpoint parse_digits (s : string) (acc : Z) : option Z :=
  match s with
  | EmptyString => Some acc
  | String c rest =>
      match digit_of c with
      | Some d => parse_digits rest (acc * 10 + d)
      | None => None
      end
  end.

Definition strconv_Atoi (bits : Z) (s : string) : option Z :=
  match s with
  | EmptyString => None
  | String c rest =>
      let neg := Ascii.eqb c "-"%char in
      let digits := if (neg || Ascii.eqb c "+"%char)%bool then rest else s in
      match digits with
      | EmptyString => None
      | _ =>
          match parse_digits digits 0 with
          | Some n =>
              let v := if neg then - n else n in
              if ((- 2 ^ (bits - 1) <=? v) && (v <? 2 ^ (bits - 1)))%bool
              then Some v else None
          | None => None
          end
      end
  end.

(** ** urfave/cli: flags and the context of a command *)

Record StringFlag := { Name : string; Usage : string }.

(** [strings.Split(longName, ",")]. *)
Fixpoint split_commas (s : string) : list string :=
  match s with
  | EmptyString => [EmptyString]
  | String c rest =>
      if Ascii.eqb c ","%char then EmptyString :: split_commas rest
      else match split_commas rest with
           | piece :: pieces => String c piece :: pieces
           | [] => [String c EmptyString]
           end
  end.

(** [strings.Trim(name, " ")]. *)
Fixpoint trim_left (s : string) : string :=
  match s with
  | String c rest => if Ascii.eqb c " "%char then trim_left rest else s
  | EmptyString => EmptyString
  end.

Fixpoint trim_right (s : string) : string :=
  match s with
  | EmptyString => EmptyString
  | String c rest =>
      match trim_right rest with
      | EmptyString => if Ascii.eqb c " "%char then EmptyString else String c EmptyString
      | kept => String c kept
      end
  end.

Definition strings_Trim (s : string) : string := trim_right (trim_left s).

(** cli's [eachName]: the names a flag is registered under. *)
Definition eachName (longName : string) : list string :=
  map strings_Trim (split_commas longName).

(** [StringFlag.Apply]: one entry of the [flag.FlagSet] per name, each
    with the flag's default value, the empty string. *)
Definition StringFlag_Apply (set : gmap string string) (f : StringFlag) : gmap string string :=
  fold_left (fun set name => <[name := EmptyString]> set) (eachName (Name f)) set.

(** [flag.FlagSet.Set]: an error for a name that is not defined. *)
Definition FlagSet_Set (set : gmap string string) (name value : string)
  : option (gmap string string) :=
  match set !! name with
  | Some _ => Some (<[name := value]> set)
  | None => None
  end.

(** Parsing the flags of a command line: [given] lists the name (after
    its dashes) and the value of each flag that was supplied. *)
Fixpoint FlagSet_Parse (set : gmap string string) (given : list (string * string))
  : option (gmap string string) :=
  match given with
  | [] => Some set
  | (name, value) :: more =>
      match FlagSet_Set set name value with
      | Some set' => FlagSet_Parse set' more
      | None => None
      end
  end.

(** A [*cli.Context]: the positional arguments, the flag set of the
    command and [c.App.Metadata]. *)
Record Context := {
  Args : list string;
  flagSet : gmap string string;
  Metadata : gmap string Client
}.

(** [c.Args().First()]. *)
Definition Args_First (c : Context) : string :=
  match Args c with
  | a :: _ => a
  | [] => EmptyString
  end.

(** [c.String(name)]: the value of the flag of that name in the flag
    set, the empty string when there is none. *)
Definition Context_String (c : Context) (name : string) : string :=
  match flagSet c !! name with
  | Some v => v
  | None => EmptyString
  end.

(** The flags of main.go, lines 76-83, and those of the add command,
    lines 121-124. *)
Definition titleFlag : StringFlag :=
  {| Name := "title, t"; Usage := "A manually specified title for the article" |}.
Definition tagsFlag : StringFlag :=
  {| Name := "tags, tg"; Usage := "A comma-separated list of tags" |}.

Definition add_Flags : list StringFlag := [titleFlag; tagsFlag].

Definition add_flagSet : gmap string string := fold_left StringFlag_Apply add_Flags ∅.

(** ** main.go over the collaborators *)

Section Program.

Variable E : Env.

(** *** Library calls *)

Definition ErrNotExist (path : string) : error :=
  mkError ("open " +:+ path +:+ ": no such file or directory").

(** [os.Open]: the handle of an open file is its path. *)
Definition os_Open (path : string) : M (result string) :=
  fun w =>
    let r := match open_error E path with
             | Some e => Err e
             | None =>
                 match files w !! path with
                 | Some _ => Ok path
                 | None => Err (ErrNotExist path)
                 end
             end in
    (Ret r, w, [EvOpen path (err_of r)]).

Definition File_Close (f : string) : M unit := emit (EvClose f).

(** [json.NewDecoder(r).Decode(v)]: [v] is filled in place. *)
Definition json_Decode (r : string) (v : Authorization) : M (Authorization * option error) :=
  fun w =>
    let bytes := match files w !! r with
                 | Some f => data f
                 | None => EmptyString
                 end in
    let res := json_decode E bytes v in
    (Ret res, w, [EvDecode r (snd res)]).

(** Octal 0666 and 0600. *)
Definition mode_0666 : N := 438.
Definition mode_0600 : N := 384.

(** The mode of a file made by an [open(2)] with [O_CREATE]. *)
Definition create_mode (requested : N) : N := N.ldiff requested (umask E).

(** [os.Create]: [O_RDWR|O_CREATE|O_TRUNC] with mode 0666; an existing
    file is emptied and keeps its mode. *)
Definition os_Create (path : string) : M (result string) :=
  fun w =>
    match create_error E path with
    | Some e => (Ret (Err e), w, [EvCreate path (Some e)])
    | None =>
        let mode := match files w !! path with
                    | Some f => perm f
                    | None => create_mode mode_0666
                    end in
        (Ret (Ok path),
         set_files (<[path := {| data := EmptyString; perm := mode |}]> (files w)) w,
         [EvCreate path None])
    end.

(** Writing [bytes] at the start of the freshly truncated file [f]. *)
Definition write_all (f : string) (bytes : string) (w : world) : world :=
  match files w !! f with
  | Some old => set_files (<[f := {| data := bytes; perm := perm old |}]> (files w)) w
  | None => w
  end.

(** [json.NewEncoder(w).Encode(v)]. *)
Definition json_Encode (f : string) (v : Authorization) : M (option error) :=
  fun w =>
    let bytes := json_encode E v in
    match write_error E f with
    | Some e => (Ret (Some e), w, [EvEncode f bytes (Some e)])
    | None => (Ret None, write_all f bytes w, [EvEncode f bytes None])
    end.

(** The standard logger: [Output] ends the line when the message does
    not. *)
Definition logged_line (s : string) : string :=
  if ((0 <? String.length s)%nat && byte_from_end 1 lf s)%bool then s else s +:+ nl.
Definition log_Output (s : string) : M unit := emit (EvLog (logged_line s)).
Definition log_Println (msg : string) : M unit := log_Output (msg +:+ nl).
Definition log_Print (msg : string) : M unit := log_Output msg.
Definition fmt_Println (s : string) : M unit := emit (EvStdout (s +:+ nl)).

Definition httptest_NewServer : M string :=
  fun w => (Ret (server_URL E), w, [EvNewServer (server_URL E)]).
Definition Server_Close : M unit := emit EvServerClose.

Definition ObtainRequestToken (consumerKey redirectURL : string) : M (result RequestToken) :=
  fun w =>
    let r := auth_ObtainRequestToken E consumerKey redirectURL in
    (Ret r, w, [EvObtainRequestToken consumerKey redirectURL r]).

Definition GenerateAuthorizationURL (requestToken : RequestToken) (redirectURL : string) : M string :=
  fun w =>
    let url := auth_GenerateAuthorizationURL E requestToken redirectURL in
    (Ret url, w, [EvGenerateAuthorizationURL requestToken redirectURL url]).

Definition ObtainAccessToken (consumerKey : string) (requestToken : RequestToken)
  : M (result Authorization) :=
  fun w =>
    let r := auth_ObtainAccessToken E consumerKey requestToken in
    (Ret r, w, [EvObtainAccessToken consumerKey requestToken r]).

(** *** saveJSONToFile and loadJSONFromFile (lines 322-342) *)

Definition saveJSONToFile (path : string) (v : Authorization) : M (option error) :=
  let! r := os_Create path in
  match r with
  | Err err => ret (Some err)
  | Ok w => defer (File_Close w) (json_Encode w v)
  end.

(** The second component of the result is the returned error; the first
    is what the call leaves in [*v]. *)
Definition loadJSONFromFile (path : string) (v : Authorization) : M (Authorization * option error) :=
  let! r := os_Open path in
  match r with
  | Err err => ret (v, Some err)
  | Ok r => defer (File_Close r) (json_Decode r v)
  end.

(** *** obtainAccessToken (lines 292-320) *)

Definition obtainAccessToken (consumerKey : string) : M (result Authorization) :=
  let! ts := httptest_NewServer in
  defer Server_Close (
    let redirectURL := ts in
    let! r := ObtainRequestToken consumerKey redirectURL in
    match r with
    | Err err => ret (Err err)
    | Ok requestToken =>
        let! url := GenerateAuthorizationURL requestToken redirectURL in
        do! fmt_Println url in
        do! chan_recv in
        ObtainAccessToken consumerKey requestToken
    end).

(** *** restoreAccessToken (lines 269-290) *)

Definition authFile : string := filepath_Join E (configDir E) "auth.json".

Definition restoreAccessToken (consumerKey : string) : M (result Authorization) :=
  let accessToken := Authorization_zero in
  let! r := loadJSONFromFile authFile accessToken in
  let accessToken := fst r in
  match snd r with
  | Some err =>
      do! log_Println (error_msg err) in
      let! r := obtainAccessToken consumerKey in
      match r with
      | Err err => ret (Err err)
      | Ok accessToken =>
          let! err := saveJSONToFile authFile accessToken in
          match err with
          | Some err => ret (Err err)
          | None => ret (Ok accessToken)
          end
      end
  | None => ret (Ok accessToken)
  end.

(** *** getConsumerKey (lines 245-267) *)

Definition ioutil_ReadFile (path : string) : M (result string) :=
  fun w =>
    let r := match open_error E path with
             | Some e => Err e
             | None =>
                 match files w !! path with
                 | Some f => Ok (data f)
                 | None => Err (ErrNotExist path)
                 end
             end in
    (Ret r, w, [EvReadFile path (err_of r)]).

(** [ioutil.WriteFile]: [O_WRONLY|O_CREATE|O_TRUNC] with the given
    mode, then one write. *)
Definition ioutil_WriteFile (path : string) (bytes : string) (mode : N) : M (option error) :=
  fun w =>
    match create_error E path with
    | Some e => (Ret (Some e), w, [EvWriteFile path bytes mode (Some e)])
    | None =>
        let m := match files w !! path with
                 | Some f => perm f
                 | None => create_mode mode
                 end in
        match write_error E path with
        | Some e =>
            (Ret (Some e),
             set_files (<[path := {| data := EmptyString; perm := m |}]> (files w)) w,
             [EvWriteFile path bytes mode (Some e)])
        | None =>
            (Ret None,
             set_files (<[path := {| data := bytes; perm := m |}]> (files w)) w,
             [EvWriteFile path bytes mode None])
        end
    end.

(** [bufio.NewReader(os.Stdin).ReadLine()]. *)
Definition Stdin_ReadLine : M (string * bool * option error) :=
  fun w =>
    let r := bufio_ReadLine defaultBufSize (stdin E) in
    (Ret r, w, [EvReadLine (fst (fst r)) (snd (fst r)) (snd r)]).

Definition consumerKeyPath : string := filepath_Join E (configDir E) "consumer_key".

Definition prompt : string :=
  "Enter your consumer key (from here https://getpocket.com/developer/apps/): ".

Definition getConsumerKey : M string :=
  let! r := ioutil_ReadFile consumerKeyPath in
  match r with
  | Err err =>
      do! log_Print ("Can't get consumer key: " +:+ error_msg err) in
      do! log_Print prompt in
      let! rl := Stdin_ReadLine in
      let consumerKey := fst (fst rl) in
      match snd rl with
      | Some err => panic err
      | None =>
          let! err := ioutil_WriteFile consumerKeyPath consumerKey mode_0600 in
          match err with
          | Some err => panic err
          | None => ret consumerKey
          end
      end
  | Ok consumerKey =>
      match bytes_SplitN_2 consumerKey !! 0%nat with
      | Some first => ret first
      | None => panic (mkError "index out of range")
      end
  end.

(** *** The commands (lines 196-243) *)

(** The type assertion on [c.App.Metadata["client"]], to a pointer to
    [api.Client]: it panics on the nil interface of a missing key. *)
Definition Metadata_client (c : Context) : M Client :=
  match Metadata c !! "client" with
  | Some client => ret client
  | None => panic (mkError "interface conversion: interface {} is nil, not *api.Client")
  end.

Definition Client_Modify (client : Client) (action : Action) : M (string * option error) :=
  fun w =>
    let r := client_Modify E client action in
    (Ret r, w, [EvModify client action (fst r) (snd r)]).

Definition Client_Add (client : Client) (options : AddOption) : M (option error) :=
  fun w =>
    let err := client_Add E client options in
    (Ret err, w, [EvAdd client options err]).

Definition commandArchive (c : Context) : M (option error) :=
  let itemIDString := Args_First c in
  if String.eqb itemIDString EmptyString then
    ret (Some (errors_New "item id not found"))
  else
    match strconv_Atoi (intSize E) itemIDString with
    | None => ret (Some (errors_New "item id should be number"))
    | Some itemID =>
        let! client := Metadata_client c in
        let action := api_NewArchiveAction itemID in
        let! r := Client_Modify client action in
        do! emit (EvPrintModify (fst r) (snd r)) in
        ret None
    end.

Definition commandAdd (c : Context) : M (option error) :=
  let options := {| URL := EmptyString; Title := EmptyString; Tags := EmptyString |} in
  let url := Args_First c in
  if String.eqb url EmptyString then
    ret (Some (errors_New "url not found"))
  else
    let options := {| URL := url; Title := Title options; Tags := Tags options |} in
    let title := Context_String c "title" in
    let options :=
      if negb (String.eqb title EmptyString)
      then {| URL := URL options; Title := title; Tags := Tags options |}
      else options in
    let tags := Context_String c "--tags" in
    let options :=
      if negb (String.eqb tags EmptyString)
      then {| URL := URL options; Title := Title options; Tags := tags |}
      else options in
    let! client := Metadata_client c in
    let! err := Client_Add client options in
    match err with
    | Some err =>
        do! emit (EvStderr (error_msg err +:+ nl)) in
        os_Exit 1
    | None => ret None
    end.

(** *** main (lines 85-100 and 133-136) *)

(** [app.Before]: the client it stores under "client" in
    [app.Metadata]. *)
Definition Before : M (gmap string Client) :=
  let! consumerKey := getConsumerKey in
  let! r := restoreAccessToken consumerKey in
  match r with
  | Err err => panic err
  | Ok accessToken =>
      let client := api_NewClient consumerKey (AccessToken accessToken) in
      ret {[ "client" := client ]}
  end.

(** What main does with the error [app.Run] hands back. *)
Definition main_exit (err : option error) : M unit :=
  match err with
  | Some err =>
      do! emit (EvStderr ("Error: " +:+ error_msg err +:+ nl)) in
      os_Exit 1
  | None => ret tt
  end.

End Program.

(** ** A concrete run: the scenario of the specification

    The consumer identifier file holds [abc123] and a newline, there is
    no record file, the service issues the request credential [req-1],
    the browser asks for the favicon and then hits the callback, and the
    exchange yields the access credential [tok-xyz] of user [alice]. *)

Module Scenario.

Definition dq : string := String "034"%char EmptyString.

(** A JSON codec for records whose strings need no escaping: the object
    with the two fields in order, and a newline. *)
Definition plain_encode (a : Authorization) : string :=
  "{" +:+ dq +:+ "access_token" +:+ dq +:+ ":" +:+ dq +:+ AccessToken a +:+ dq +:+ ","
      +:+ dq +:+ "username" +:+ dq +:+ ":" +:+ dq +:+ Username a +:+ dq +:+ "}" +:+ nl.

(** [s] without the prefix [p]. *)
Fixpoint strip_prefix (p s : string) : option string :=
  match p, s with
  | EmptyString, _ => Some s
  | String a p', String b s' => if Ascii.eqb a b then strip_prefix p' s' else None
  | String _ _, EmptyString => None
  end.

(** The bytes before the first double quote, and those after it. *)
Fixpoint cut_quote (s : string) : option (string * string) :=
  match s with
  | EmptyString => None
  | String c rest =>
      if Ascii.eqb c "034"%char then Some (EmptyString, rest)
      else match cut_quote rest with
           | Some (before, after) => Some (String c before, after)
           | None => None
           end
  end.

Definition syntax_error : error := mkError "invalid character".

Definition plain_decode (bytes : string) (v : Authorization) : Authorization * option error :=
  match strip_prefix ("{" +:+ dq +:+ "access_token" +:+ dq +:+ ":" +:+ dq) bytes with
  | None => (v, Some syntax_error)
  | Some rest =>
      match cut_quote rest with
      | None => (v, Some syntax_error)
      | Some (token, rest) =>
          match strip_prefix ("," +:+ dq +:+ "username" +:+ dq +:+ ":" +:+ dq) rest with
          | None => (v, Some syntax_error)
          | Some rest =>
              match cut_quote rest with
              | None => (v, Some syntax_error)
              | Some (user, rest) =>
                  match strip_prefix "}" rest with
                  | None => (v, Some syntax_error)
                  | Some _ => ({| AccessToken := token; Username := user |}, None)
                  end
              end
          end
      end
  end.

Definition alice : Authorization := {| AccessToken := "tok-xyz"; Username := "alice" |}.

Definition dir : string := "/home/alice/.config/pocket".

(** The collaborators of the scenario, with a switch for what the
    operator types, for creating a file and for the exchange. *)
Definition env_typing (input : string) (createErr : option error)
    (exchange : result Authorization) : Env :=
  {| configDir := dir;
     filepath_Join := fun d name => d +:+ "/" +:+ name;
     open_error := fun _ => None;
     create_error := fun _ => createErr;
     write_error := fun _ => None;
     umask := 18;
     stdin := input;
     intSize := 64;
     json_encode := plain_encode;
     json_decode := plain_decode;
     server_URL := "http://127.0.0.1:40123";
     auth_ObtainRequestToken := fun _ _ => Ok {| Code := "req-1" |};
     auth_GenerateAuthorizationURL := fun rt redirect =>
       "https://getpocket.com/auth/authorize?redirect_uri=" +:+ redirect
         +:+ "&request_token=" +:+ Code rt;
     auth_ObtainAccessToken := fun _ _ => exchange;
     client_Modify := fun _ _ => ("&{[true] 1}", Some (mkError "403 Forbidden"));
     client_Add := fun _ _ => None |}.

Definition env : option error -> result Authorization -> Env :=
  env_typing ("abc123" +:+ nl).

Definition happy : Env := env None (Ok alice).

Fixpoint repeat_byte (n : nat) (c : ascii) : string :=
  match n with
  | O => EmptyString
  | S n' => String c (repeat_byte n' c)
  end.

(** Standard input is a pipe whose first line has 5000 bytes. *)
Definition piped : Env :=
  env_typing (repeat_byte 5000 "k" +:+ nl) None (Ok alice).

Definition key_file : file := {| data := "abc123" +:+ nl; perm := 384 |}.

(** No record file yet. *)
Definition cold : world :=
  {| files := {[ dir +:+ "/consumer_key" := key_file ]};
     requests := ["/favicon.ico"; "/"] |}.

(** The record file is there. *)
Definition warm : world :=
  {| files := <[ dir +:+ "/auth.json" := {| data := plain_encode alice; perm := 420 |} ]>
                (files cold);
     requests := [] |}.

(** Nothing on disk. *)
Definition fresh : world := {| files := ∅; requests := [] |}.

Definition client : Client := api_NewClient "abc123" "tok-xyz".

(** [pocket archive 1234] and [pocket add --title T --tags a,b URL],
    after [app.Before]. *)
Definition archive_context : Context :=
  {| Args := ["1234"]; flagSet := ∅; Metadata := {[ "client" := client ]} |}.

Definition add_given : list (string * string) := [("title", "T"); ("tags", "a,b")].

(** The flag set after parsing them. *)
Definition add_set : gmap string string :=
  <[ "tags" := "a,b" ]> (<[ "title" := "T" ]> add_flagSet).

Definition add_context (set : gmap string string) : Context :=
  {| Args := ["https://example.com/"]; flagSet := set;
     Metadata := {[ "client" := client ]} |}.

End Scenario.

(** ** Reading the log *)

(** The steps of an acquisition, as the specification names them. *)
Inductive acquisition_step : Type :=
| ListenerBind
| RequestCredential
| URLConstruction
| AwaitSignal
| Exchange
| Persist.

Definition step_of (e : event) : option acquisition_step :=
  match e with
  | EvNewServer _ => Some ListenerBind
  | EvObtainRequestToken _ _ _ => Some RequestCredential
  | EvGenerateAuthorizationURL _ _ _ => Some URLConstruction
  | EvRecv => Some AwaitSignal
  | EvObtainAccessToken _ _ _ => Some Exchange
  | EvEncode _ _ _ => Some Persist
  | _ => None
  end.

(** The acquisition steps of a run, in the order in which they happened. *)
Definition acquisition_steps (evs : list event) : list acquisition_step :=
  omap step_of evs.

(** The calls that create, truncate or fill a file. *)
Definition writes_file (e : event) : bool :=
  match e with
  | EvCreate _ _ | EvEncode _ _ _ | EvWriteFile _ _ _ _ => true
  | _ => false
  end.

(** Permission bits that give nothing to the group and to others
    (octal 077 is clear). *)
Definition owner_only (mode : N) : Prop := N.land mode 63 = 0%N.

(** "Missing or malformed": there is no record file, or the decoder
    rejects its bytes. *)
Definition record_unusable (E : Env) (w : world) : Prop :=
  match files w !! authFile E with
  | None => True
  | Some f => snd (json_decode E (data f) Authorization_zero) <> None
  end.

(** ** The rendezvous on [ch] as a transition system

    The goroutines around the channel of obtainAccessToken: the
    orchestrator, which receives from [ch] once, and one goroutine per
    request the listener accepts, running [handler].  A schedule is a
    list of labels; [step] is Go's channel semantics: a send completes
    when the receiver is waiting at the channel or when the buffer has
    room, and blocks otherwise. *)

Module Rendezvous.

Inductive orchestrator : Type :=
| Running      (* before [<-ch] *)
| Receiving    (* blocked at [<-ch] *)
| Received.    (* past [<-ch] *)

Record state := {
  capacity : nat;                    (* the buffer size [ch] was made with *)
  queued : nat;                      (* values waiting in the buffer *)
  orch : orchestrator;
  handlers : list (list haction);    (* per request, what its handler has yet to do *)
  sent : nat                         (* sends on [ch] that have completed *)
}.

Inductive label : Type :=
| Request (path : string)   (* the listener accepts a request *)
| Act (i : nat)             (* the handler of request [i] does its next action *)
| Arrive                    (* the orchestrator reaches [<-ch] *)
| Take.                     (* the orchestrator takes a value from the buffer *)

Definition step (l : label) (s : state) : option state :=
  match l with
  | Request path =>
      Some {| capacity := capacity s; queued := queued s; orch := orch s;
              handlers := handlers s ++ [handler path]; sent := sent s |}
  | Arrive =>
      match orch s with
      | Running =>
          Some {| capacity := capacity s; queued := queued s; orch := Receiving;
                  handlers := handlers s; sent := sent s |}
      | _ => None
      end
  | Take =>
      match orch s, queued s with
      | Receiving, S q =>
          Some {| capacity := capacity s; queued := q; orch := Received;
                  handlers := handlers s; sent := sent s |}
      | _, _ => None
      end
  | Act i =>
      match handlers s !! i with
      | Some (HSend :: todo) =>
          match orch s, queued s with
          | Receiving, O =>
              Some {| capacity := capacity s; queued := 0; orch := Received;
                      handlers := <[i := todo]> (handlers s); sent := S (sent s) |}
          | _, q =>
              if (q <? capacity s)%nat then
                Some {| capacity := capacity s; queued := S q; orch := orch s;
                        handlers := <[i := todo]> (handlers s); sent := S (sent s) |}
              else None
          end
      | Some (_ :: todo) =>
          Some {| capacity := capacity s; queued := queued s; orch := orch s;
                  handlers := <[i := todo]> (handlers s); sent := sent s |}
      | _ => None
      end
  end.

Fixpoint run (ls : list label) (s : state) : option state :=
  match ls with
  | [] => Some s
  | l :: ls' =>
      match step l s with
      | Some s' => run ls' s'
      | None => None
      end
  end.

(** The state obtainAccessToken starts in. *)
Definition start : state :=
  {| capacity := chan_capacity; queued := 0; orch := Running; handlers := []; sent := 0 |}.

(** The handler of request [i] stands at its send. *)
Definition at_send (i : nat) (s : state) : Prop :=
  exists todo, handlers s !! i = Some (HSend :: todo).

(** What holds of every state reached from [start]: the channel has no
    buffer, and the only send that completes is the one the orchestrator
    received. *)
Definition inv (s : state) : Prop :=
  capacity s = 0%nat /\ queued s = 0%nat
  /\ sent s = match orch s with Received => 1%nat | _ => 0%nat end.

End Rendezvous.

(** ** The list command (main.go, lines 139-194) *)

(** api.RetrieveOption with the fields main.go sets, and api.Item with
    what main.go reads of it: the sort key and the three values of the
    default template. *)
Record RetrieveOption := { Domain : string; Search : string; Tag : string; Count : Z }.
Record Item := { ItemItemID : Z; ItemTitle : string; ItemURL : string; SortId : Z }.

(** [bySortID], the slice type with the three methods of
    [sort.Interface].  An index out of range panics: [None]. *)
Definition bySortID_Len (s : list Item) : nat := length s.

Definition bySortID_Less (s : list Item) (i j : nat) : option bool :=
  match s !! i, s !! j with
  | Some a, Some b => Some (SortId a <? SortId b)
  | _, _ => None
  end.

Definition bySortID_Swap (s : list Item) (i j : nat) : option (list Item) :=
  match s !! i, s !! j with
  | Some a, Some b => Some (<[j := a]> (<[i := b]> s))
  | _, _ => None
  end.

(** The collaborators of the list command: [client.Retrieve] with the
    items of [res.List] in the order in which [range] visits the map,
    [sort.Sort] on a [bySortID], and text/template, where a template is
    known by its source and [None] stands for [defaultItemTemplate];
    [Execute] gives what it wrote to standard output and its error. *)
Record ListEnv := {
  client_Retrieve : Client -> RetrieveOption -> result (list Item);
  sort_Sort : list Item -> list Item;
  template_Parse : string -> option error;
  template_Execute : option string -> Item -> string * option error
}.

(** What [sort.Sort] promises of a [bySortID]: the same items, and no
    later one less than an earlier one. *)
Definition sorts_bySortID (sort : list Item -> list Item) : Prop :=
  forall s,
    sort s ≡ₚ s
    /\ forall i j, (i < j < bySortID_Len (sort s))%nat ->
                   bySortID_Less (sort s) j i = Some false.

Inductive list_event : Type :=
| LRetrieve (c : Client) (o : RetrieveOption) (err : option error)
| LParse (format : string) (err : option error)
| LExecute (item : Item) (out : string) (err : option error)
| LPrintln (line : string).

(** The loop of lines 185-191. *)
Fixpoint print_items (L : ListEnv) (itemTemplate : option string) (items : list Item)
  : outcome (option error) * list list_event :=
  match items with
  | [] => (Ret None, [])
  | item :: more =>
      let '(out, err) := template_Execute L itemTemplate item in
      match err with
      | Some err => (Panic err, [LExecute item out (Some err)])
      | None =>
          let '(o, evs) := print_items L itemTemplate more in
          (o, LExecute item out None :: LPrintln nl :: evs)
      end
  end.

(** The options of lines 146-162. *)
Definition list_options (E : Env) (c : Context) : RetrieveOption :=
  let options :=
    {| Domain := EmptyString; Search := EmptyString; Tag := EmptyString; Count := 0 |} in
  let domain := Context_String c "domain" in
  let options :=
    if negb (String.eqb domain EmptyString)
    then {| Domain := domain; Search := Search options; Tag := Tag options;
            Count := Count options |}
    else options in
  let search := Context_String c "search" in
  let options :=
    if negb (String.eqb search EmptyString)
    then {| Domain := Domain options; Search := search; Tag := Tag options;
            Count := Count options |}
    else options in
  let tag := Context_String c "tag" in
  let options :=
    if negb (String.eqb tag EmptyString)
    then {| Domain := Domain options; Search := Search options; Tag := tag;
            Count := Count options |}
    else options in
  let options :=
    {| Domain := Domain options; Search := Search options; Tag := Tag options; Count := 10 |} in
  let count := Context_String c "count" in
  if negb (String.eqb count EmptyString) then
    match strconv_Atoi (intSize E) count with
    | Some i =>
        {| Domain := Domain options; Search := Search options; Tag := Tag options; Count := i |}
    | None => options
    end
  else options.

Definition commandList (L : ListEnv) (E : Env) (c : Context)
  : outcome (option error) * list list_event :=
  let options := list_options E c in
  match Metadata c !! "client" with
  | None => (Panic (mkError "interface conversion: interface {} is nil, not *api.Client"), [])
  | Some client =>
      match client_Retrieve L client options with
      | Err err =>
          (Ret (Some (errors_New ("failed to item retrieve. " +:+ error_msg err))),
           [LRetrieve client options (Some err)])
      | Ok list =>
          let format := Context_String c "format" in
          let parsed :=
            if negb (String.eqb format EmptyString) then
              match template_Parse L format with
              | Some err => (Err err, [LParse format (Some err)])
              | None => (Ok (Some format), [LParse format None])
              end
            else (Ok None, []) in
          match parsed with
          | (Err err, evs) => (Panic err, LRetrieve client options None :: evs)
          | (Ok itemTemplate, evs) =>
              let items := sort_Sort L list in
              let '(o, printed) := print_items L itemTemplate items in
              (o, LRetrieve client options None :: evs ++ printed)
          end
      end
  end.

(** The template of lines 171-176: the one of the format flag when
    it is set, else [defaultItemTemplate]. *)
Definition list_template (c : Context) : option string :=
  if negb (String.eqb (Context_String c "format") EmptyString)
  then Some (Context_String c "format")
  else None.

(** The items the loop handed to the template, in order. *)
Definition executed (evs : list list_event) : list Item :=
  omap (fun e => match e with LExecute item _ _ => Some item | _ => None end) evs.

(** The lines that reached standard output, in order. *)
Definition printed (evs : list list_event) : list string :=
  omap (fun e => match e with
                 | LExecute _ out _ => Some out
                 | LPrintln line => Some line
                 | _ => None
                 end) evs.

(** A shelf for the examples: three items out of order, a sort that
    meets [sorts_bySortID], and a template that prints the title. *)
Module Shelf.

Definition apple : Item :=
  {| ItemItemID := 101; ItemTitle := "Apple"; ItemURL := "https://a.example/"; SortId := 0 |}.
Definition berry : Item :=
  {| ItemItemID := 102; ItemTitle := "Berry"; ItemURL := "https://b.example/"; SortId := 1 |}.
Definition cherry : Item :=
  {| ItemItemID := 103; ItemTitle := "Cherry"; ItemURL := "https://c.example/"; SortId := 2 |}.

Definition by_key (a b : Item) : Prop := SortId a <= SortId b.

#[global] Instance by_key_dec : RelDecision by_key :=
  fun a b => decide (SortId a <= SortId b).

Definition sort : list Item -> list Item := merge_sort by_key.

Definition env (answer : result (list Item)) : ListEnv :=
  {| client_Retrieve := fun _ _ => answer;
     sort_Sort := sort;
     template_Parse := fun _ => None;
     template_Execute := fun _ item => (ItemTitle item, None) |}.

Definition context (count : string) : Context :=
  {| Args := [];
     flagSet := <[ "count" := count ]> ∅;
     Metadata := {[ "client" := Scenario.client ]} |}.

End Shelf.

(** ** More ways to read the log *)

Definition is_exchange (e : event) : bool :=
  match e with EvObtainAccessToken _ _ _ => true | _ => false end.


(** A file handle comes into being, and goes. *)
Definition opens_file (e : event) : bool :=
  match e with EvOpen _ None | EvCreate _ None => true | _ => false end.
Definition closes_file (e : event) : bool :=
  match e with EvClose _ => true | _ => false end.

(** The two answers of the handler. *)
Definition not_found : response :=
  {| status := 404; content_type := "text/plain; charset=utf-8"; body := "Not Found" +:+ nl |}.
Definition authorized : response :=
  {| status := 200; content_type := "text/plain"; body := "Authorized." +:+ nl |}.

(** What obtainAccessToken logs up to the point where it waits. *)
Definition shown (E : Env) (consumerKey : string) (requestToken : RequestToken) : list event :=
  [EvNewServer (server_URL E);
   EvObtainRequestToken consumerKey (server_URL E) (Ok requestToken);
   EvGenerateAuthorizationURL requestToken (server_URL E)
     (auth_GenerateAuthorizationURL E requestToken (server_URL E));
   EvStdout (auth_GenerateAuthorizationURL E requestToken (server_URL E) +:+ nl)].

(** More collaborators for the examples. *)
Module Cases.


(** The scenario with a service that refuses to add. *)
Definition full (e : error) : Env :=
  {| configDir := configDir Scenario.happy;
     filepath_Join := filepath_Join Scenario.happy;
     open_error := open_error Scenario.happy;
     create_error := create_error Scenario.happy;
     write_error := write_error Scenario.happy;
     umask := umask Scenario.happy;
     stdin := stdin Scenario.happy;
     intSize := intSize Scenario.happy;
     json_encode := json_encode Scenario.happy;
     json_decode := json_decode Scenario.happy;
     server_URL := server_URL Scenario.happy;
     auth_ObtainRequestToken := auth_ObtainRequestToken Scenario.happy;
     auth_GenerateAuthorizationURL := auth_GenerateAuthorizationURL Scenario.happy;
     auth_ObtainAccessToken := auth_ObtainAccessToken Scenario.happy;
     client_Modify := client_Modify Scenario.happy;
     client_Add := fun _ _ => Some e |}.

(** Nobody at the keyboard: standard input is at its end. *)
Definition silent : Env := Scenario.env_typing EmptyString None (Ok Scenario.alice).

(** A configuration directory that cannot be written. *)
Definition readonly : Env :=
  Scenario.env_typing ("abc123" +:+ nl) (Some (mkError "permission denied"))
    (Ok Scenario.alice).

End Cases.

(** * Properties *)

(** ** The definitions at work *)

Example Atoi_accepts :
  strconv_Atoi 64 "1234" = Some 1234
  /\ strconv_Atoi 64 "-7" = Some (-7)
  /\ strconv_Atoi 64 "+" = None
  /\ strconv_Atoi 64 "12a" = None
  /\ strconv_Atoi 64 "9223372036854775808" = None.
Proof. repeat split. Qed.

Example eachName_tags : eachName (Name tagsFlag) = ["tags"; "tg"].
Proof. reflexivity. Qed.

Example ReadLine_small :
  bufio_ReadLine 4 ("ab" +:+ nl +:+ "x") = ("ab", false, None)
  /\ bufio_ReadLine 4 "abc" = ("abc", false, None)
  /\ bufio_ReadLine 4 "abcdef" = ("abcd", true, None)
  /\ bufio_ReadLine 4 (String "a" (String cr nl)) = ("a", false, None)
  /\ bufio_ReadLine 4 EmptyString = (EmptyString, false, Some (mkError "EOF")).
Proof. repeat split. Qed.

(** The scenario from end to end: [app.Before] reads the consumer key,
    runs the acquisition, leaves the record of alice in the record file
    and hands the commands a client with her credential. *)
Example scenario_end_to_end :
  outcome_of (Before Scenario.happy Scenario.cold) = Ret {[ "client" := Scenario.client ]}
  /\ files (world_of (Before Scenario.happy Scenario.cold)) !! authFile Scenario.happy
     = Some {| data := Scenario.plain_encode Scenario.alice; perm := 420 |}
  /\ outcome_of (loadJSONFromFile Scenario.happy (authFile Scenario.happy) Authorization_zero
                   (world_of (Before Scenario.happy Scenario.cold)))
     = Ret (Scenario.alice, None).
Proof. vm_compute. repeat split. Qed.

(** ** The monad *)

Ltac unfold_go :=
  unfold restoreAccessToken, obtainAccessToken, saveJSONToFile, loadJSONFromFile,
    getConsumerKey, commandArchive, commandAdd, main_exit, Metadata_client,
    os_Open, os_Create, json_Decode, json_Encode, File_Close, Server_Close,
    httptest_NewServer, ObtainRequestToken, GenerateAuthorizationURL,
    ObtainAccessToken, ioutil_ReadFile, ioutil_WriteFile, Stdin_ReadLine,
    Client_Modify, Client_Add, chan_recv,
    log_Println, log_Print, log_Output, fmt_Println,
    defer, bind, ret, emit, panic, os_Exit,
    outcome_of, world_of, events_of in *.

Lemma set_files_same (w : world) : set_files (files w) w = w.
Proof. destruct w; reflexivity. Qed.

Lemma files_set_requests (r : list string) (w : world) : files (set_requests r w) = files w.
Proof. reflexivity. Qed.

(** ** Bytes *)

Lemma length_append (a b : string) :
  String.length (a +:+ b) = (String.length a + String.length b)%nat.
Proof. induction a as [|c a IH]; simpl; [reflexivity | rewrite IH; reflexivity]. Qed.

Lemma get_append_at (a : string) (c : ascii) (r : string) :
  String.get (String.length a) (a +:+ String c r) = Some c.
Proof. induction a as [|c' a IH]; simpl; [reflexivity | exact IH]. Qed.

Lemma get_append_l (a r : string) : forall i,
  (i < String.length a)%nat -> String.get i (a +:+ r) = String.get i a.
Proof.
  induction a as [|c a IH]; intros i Hi; simpl in *; [lia|].
  destruct i as [|i]; [reflexivity | apply IH; lia].
Qed.

Lemma take_bytes_append_l (a r : string) : forall n,
  (n <= String.length a)%nat -> take_bytes n (a +:+ r) = take_bytes n a.
Proof.
  unfold take_bytes. induction a as [|c a IH]; intros n Hn; simpl in *.
  - assert (n = 0)%nat as -> by lia. destruct r; reflexivity.
  - destruct n as [|n]; [reflexivity|]. simpl. rewrite IH; [reflexivity | lia].
Qed.

Lemma take_bytes_all (s : string) : forall n,
  (String.length s <= n)%nat -> take_bytes n s = s.
Proof.
  unfold take_bytes. induction s as [|c s IH]; intros n Hn; simpl in *.
  - destruct n; reflexivity.
  - destruct n as [|n]; [lia|]. simpl. rewrite IH; [reflexivity | lia].
Qed.

(** A line that ends in a newline is one the logger leaves alone. *)
Lemma ends_in_lf (s : string) :
  ((0 <? String.length (s +:+ nl))%nat && byte_from_end 1 lf (s +:+ nl))%bool = true.
Proof.
  unfold byte_from_end, nl. rewrite length_append. simpl String.length.
  replace (String.length s + 1 - 1)%nat with (String.length s) by lia.
  rewrite get_append_at, Ascii.eqb_refl.
  apply andb_true_iff. split; [apply Nat.ltb_lt; lia | reflexivity].
Qed.

Lemma log_Println_run (msg : string) (w : world) :
  log_Println msg w = (Ret tt, w, [EvLog (msg +:+ nl)]).
Proof. unfold log_Println, log_Output, logged_line, emit. rewrite ends_in_lf. reflexivity. Qed.

Lemma first_line_length (s : string) : (String.length (first_line s) <= String.length s)%nat.
Proof.
  unfold first_line. induction s as [|c s IH]; simpl; [lia|].
  destruct (Ascii.eqb c lf); simpl; [lia|].
  destruct (cut_lf s) as [[b a]|]; simpl in *; lia.
Qed.

(** Cutting inside the first [n] bytes, when the newline is among them
    and when it is not. *)
Lemma cut_lf_take_bytes (s : string) : forall n b a,
  cut_lf s = Some (b, a) -> (String.length b < n)%nat ->
  exists a', cut_lf (take_bytes n s) = Some (b, a').
Proof.
  unfold take_bytes. induction s as [|c s IH]; intros n b a H Hn; simpl in H; [discriminate|].
  destruct n as [|n]; [lia|]. simpl.
  destruct (Ascii.eqb c lf).
  - inversion H; subst. eexists; reflexivity.
  - destruct (cut_lf s) as [[b' a0]|] eqn:Hs; [|discriminate].
    inversion H; subst. simpl in Hn.
    destruct (IH n b' a eq_refl ltac:(lia)) as [a' Ha']. rewrite Ha'. eexists; reflexivity.
Qed.

Lemma cut_lf_take_bytes_none (s : string) : forall n,
  (n <= String.length (first_line s))%nat -> cut_lf (take_bytes n s) = None.
Proof.
  unfold take_bytes, first_line. induction s as [|c s IH]; intros n Hn; simpl in *.
  - destruct n; reflexivity.
  - destruct n as [|n]; [reflexivity|]. simpl.
    destruct (Ascii.eqb c lf); simpl in Hn; [lia|].
    rewrite IH; [reflexivity|].
    destruct (cut_lf s) as [[b a]|]; simpl in *; lia.
Qed.

Lemma cut_lf_none_get (s : string) :
  cut_lf s = None -> forall i, String.get i s <> Some lf.
Proof.
  induction s as [|c s IH]; intros H i; simpl in *; [destruct i; discriminate|].
  destruct (Ascii.eqb_spec c lf) as [|Hc]; [discriminate|].
  destruct (cut_lf s) as [[b a]|]; [discriminate|].
  destruct i as [|i]; [congruence | apply IH; reflexivity].
Qed.

(** [ReadLine], in terms of the input: a first line that fits the
    buffer comes back whole and without its line ending; a longer one
    comes back cut at the size of the buffer, flagged as a prefix. *)
Lemma bufio_ReadLine_fits (size : nat) (input : string) :
  input <> EmptyString ->
  (String.length (first_line input) < size)%nat ->
  bufio_ReadLine size input = (typed_line input, false, None).
Proof.
  intros Hne Hfit. unfold bufio_ReadLine, bufio_ReadSlice, typed_line, first_line in *.
  destruct (cut_lf input) as [[b a]|] eqn:Hcut.
  - destruct (cut_lf_take_bytes _ _ _ _ Hcut Hfit) as [a' ->].
    assert (Hlen : String.length (b +:+ nl) = S (String.length b))
      by (rewrite length_append; simpl; lia).
    rewrite Hlen. simpl Nat.eqb. cbv iota.
    unfold byte_from_end at 1. rewrite Hlen.
    replace (S (String.length b) - 1)%nat with (String.length b) by lia.
    unfold nl at 1. rewrite get_append_at, Ascii.eqb_refl.
    unfold without_cr, chop. rewrite Hlen.
    replace (S (String.length b) - 1)%nat with (String.length b) by lia.
    change (substring 0 ?n ?s) with (take_bytes n s).
    rewrite !take_bytes_append_l by lia.
    rewrite (take_bytes_all b (String.length b)) by lia.
    destruct (String.length b) as [|k] eqn:Hb; [reflexivity|].
    change (1 <? S (S k))%nat with true. change (0 <? S k)%nat with true.
    unfold byte_from_end. rewrite Hlen, Hb.
    replace (S (S k) - 2)%nat with k by lia. replace (S k - 1)%nat with k by lia.
    rewrite get_append_l by lia. reflexivity.
  - rewrite take_bytes_all by lia. rewrite Hcut.
    replace (size <=? String.length input)%nat with false
      by (symmetry; apply Nat.leb_gt; lia).
    destruct input as [|c s]; [contradiction|].
    simpl Nat.eqb. cbv iota.
    unfold byte_from_end.
    destruct (String.get (String.length (String c s) - 1) (String c s)) as [c'|] eqn:Hg;
      [|reflexivity].
    destruct (Ascii.eqb_spec c' lf) as [->|]; [|reflexivity].
    exfalso. exact (cut_lf_none_get _ Hcut _ Hg).
Qed.

Lemma bufio_ReadLine_cut (size : nat) (input : string) :
  (size <= String.length (first_line input))%nat ->
  bufio_ReadLine size input = (without_cr (take_bytes size input), true, None).
Proof.
  intros Hlong. unfold bufio_ReadLine, bufio_ReadSlice.
  rewrite cut_lf_take_bytes_none by assumption.
  pose proof (first_line_length input).
  replace (size <=? String.length input)%nat with true
    by (symmetry; apply Nat.leb_le; lia).
  reflexivity.
Qed.

(** ** The listener at the receive *)

Lemma serve_until_signal_quiet (reqs : list string) :
  forall evs pending,
    serve_until_signal reqs = (evs, pending) ->
    Forall (fun e => writes_file e = false) evs /\
    acquisition_steps evs = match pending with Some _ => [AwaitSignal] | None => [] end /\
    (forall ck rt r, ~ In (EvObtainAccessToken ck rt r) evs).
Proof.
  induction reqs as [|p rest IH]; intros evs pending H; simpl in H.
  - inversion H; subst. repeat split; [constructor | intros ? ? ? []].
  - destruct (emits_signal (handler p)).
    + inversion H; subst. repeat split.
      * repeat constructor.
      * intros ck rt r [Hin | [Hin | []]]; discriminate.
    + destruct (serve_until_signal rest) as [evs' pending'] eqn:Hrest.
      inversion H; subst.
      destruct (IH _ _ eq_refl) as (Hq & Hs & Hn).
      repeat split.
      * constructor; [reflexivity | exact Hq].
      * exact Hs.
      * intros ck rt r [Hin | Hin]; [discriminate | exact (Hn _ _ _ Hin)].
Qed.

(** ** The runs of the three parts of restoreAccessToken *)

Lemma loadJSONFromFile_run (E : Env) (path : string) (v : Authorization) (w : world) :
  loadJSONFromFile E path v w =
    match open_error E path with
    | Some e => (Ret (v, Some e), w, [EvOpen path (Some e)])
    | None =>
        match files w !! path with
        | None => (Ret (v, Some (ErrNotExist path)), w, [EvOpen path (Some (ErrNotExist path))])
        | Some f =>
            (Ret (json_decode E (data f) v), w,
             [EvOpen path None; EvDecode path (snd (json_decode E (data f) v)); EvClose path])
        end
    end.
Proof.
  unfold_go. destruct (open_error E path); [reflexivity|].
  destruct (files w !! path) as [f|] eqn:Hf; simpl; [|reflexivity].
  rewrite Hf. reflexivity.
Qed.

Lemma saveJSONToFile_run (E : Env) (path : string) (v : Authorization) (w : world) :
  saveJSONToFile E path v w =
    match create_error E path with
    | Some e => (Ret (Some e), w, [EvCreate path (Some e)])
    | None =>
        let mode := match files w !! path with
                    | Some f => perm f
                    | None => create_mode E mode_0666
                    end in
        match write_error E path with
        | Some e =>
            (Ret (Some e),
             set_files (<[path := {| data := EmptyString; perm := mode |}]> (files w)) w,
             [EvCreate path None; EvEncode path (json_encode E v) (Some e); EvClose path])
        | None =>
            (Ret None,
             set_files (<[path := {| data := json_encode E v; perm := mode |}]> (files w)) w,
             [EvCreate path None; EvEncode path (json_encode E v) None; EvClose path])
        end
    end.
Proof.
  unfold_go. destruct (create_error E path); [reflexivity|]. simpl.
  destruct (write_error E path); simpl; [reflexivity|].
  unfold write_all, set_files; simpl.
  rewrite lookup_insert_eq. simpl. rewrite insert_insert_eq. reflexivity.
Qed.

Lemma obtainAccessToken_run (E : Env) (consumerKey : string) (w : world) :
  obtainAccessToken E consumerKey w =
    let redirectURL := server_URL E in
    match auth_ObtainRequestToken E consumerKey redirectURL with
    | Err e =>
        (Ret (Err e), w,
         [EvNewServer redirectURL;
          EvObtainRequestToken consumerKey redirectURL (Err e);
          EvServerClose])
    | Ok requestToken =>
        let url := auth_GenerateAuthorizationURL E requestToken redirectURL in
        let shown :=
          [EvNewServer redirectURL;
           EvObtainRequestToken consumerKey redirectURL (Ok requestToken);
           EvGenerateAuthorizationURL requestToken redirectURL url;
           EvStdout (url +:+ nl)] in
        match serve_until_signal (requests w) with
        | (served, Some rest) =>
            (Ret (auth_ObtainAccessToken E consumerKey requestToken),
             set_requests rest w,
             shown ++ served
               ++ [EvObtainAccessToken consumerKey requestToken
                     (auth_ObtainAccessToken E consumerKey requestToken);
                   EvServerClose])
        | (served, None) => (Hang, set_requests [] w, shown ++ served)
        end
    end.
Proof.
  unfold_go. simpl.
  destruct (auth_ObtainRequestToken E consumerKey (server_URL E)); simpl; [|reflexivity].
  destruct (serve_until_signal (requests w)) as [served [rest|]]; simpl.
  - rewrite <- ?app_assoc. reflexivity.
  - reflexivity.
Qed.

(** obtainAccessToken touches no file. *)
Lemma obtainAccessToken_files (E : Env) (consumerKey : string) (w : world) :
  files (world_of (obtainAccessToken E consumerKey w)) = files w.
Proof.
  rewrite obtainAccessToken_run. simpl.
  destruct (auth_ObtainRequestToken E consumerKey (server_URL E)); [|reflexivity].
  destruct (serve_until_signal (requests w)) as [served [rest|]]; reflexivity.
Qed.

(** restoreAccessToken after a failed load: the log line, the
    acquisition, and the save when the acquisition gave a credential. *)
Lemma restoreAccessToken_miss (E : Env) (consumerKey : string) (w w1 : world)
    (v : Authorization) (e : error) (evs1 : list event) :
  loadJSONFromFile E (authFile E) Authorization_zero w = (Ret (v, Some e), w1, evs1) ->
  restoreAccessToken E consumerKey w =
    let '(o2, w2, evs2) := obtainAccessToken E consumerKey w1 in
    let logged := evs1 ++ [EvLog (error_msg e +:+ nl)] ++ evs2 in
    match o2 with
    | Ret (Ok a) =>
        let '(o3, w3, evs3) := saveJSONToFile E (authFile E) a w2 in
        (match o3 with
         | Ret (Some err) => Ret (Err err)
         | Ret None => Ret (Ok a)
         | Panic p => Panic p
         | Exit c => Exit c
         | Hang => Hang
         end, w3, logged ++ evs3)
    | Ret (Err err) => (Ret (Err err), w2, logged)
    | Panic p => (Panic p, w2, logged)
    | Exit c => (Exit c, w2, logged)
    | Hang => (Hang, w2, logged)
    end.
Proof.
  intros Hload. unfold restoreAccessToken, bind at 1. rewrite Hload. simpl.
  pose proof (log_Println_run (error_msg e) w1) as Hlog.
  unfold bind at 1. rewrite Hlog.
  unfold bind at 1.
  destruct (obtainAccessToken E consumerKey w1) as [[o2 w2] evs2].
  destruct o2 as [[a|err]| | |]; simpl; try reflexivity.
  - unfold bind.
    destruct (saveJSONToFile E (authFile E) a w2) as [[o3 w3] evs3].
    destruct o3 as [[err|]| | |]; simpl; rewrite <- ?app_assoc; simpl;
      rewrite ?app_nil_r; reflexivity.
  - unfold ret. rewrite app_nil_r. reflexivity.
Qed.

Lemma restoreAccessToken_hit (E : Env) (consumerKey : string) (w w1 : world)
    (a : Authorization) (evs1 : list event) :
  loadJSONFromFile E (authFile E) Authorization_zero w = (Ret (a, None), w1, evs1) ->
  restoreAccessToken E consumerKey w = (Ret (Ok a), w1, evs1).
Proof.
  intros Hload. unfold restoreAccessToken, bind. rewrite Hload. simpl.
  rewrite app_nil_r. reflexivity.
Qed.

(** A load never writes, and its log holds no acquisition step. *)
Lemma loadJSONFromFile_quiet (E : Env) (path : string) (v : Authorization) (w : world) :
  world_of (loadJSONFromFile E path v w) = w
  /\ Forall (fun e => writes_file e = false) (events_of (loadJSONFromFile E path v w))
  /\ acquisition_steps (events_of (loadJSONFromFile E path v w)) = []
  /\ exists r, outcome_of (loadJSONFromFile E path v w) = Ret r.
Proof.
  rewrite loadJSONFromFile_run.
  destruct (open_error E path); [|destruct (files w !! path)];
    (split; [reflexivity | split; [repeat constructor | split; [reflexivity | eexists; reflexivity]]]).
Qed.

(** With an unusable record file the load reports an error. *)
Lemma record_unusable_load (E : Env) (w : world) :
  record_unusable E w ->
  exists v e, outcome_of (loadJSONFromFile E (authFile E) Authorization_zero w) = Ret (v, Some e).
Proof.
  unfold record_unusable. intros H. rewrite loadJSONFromFile_run.
  destruct (open_error E (authFile E)); [eexists _, _; reflexivity|].
  destruct (files w !! authFile E) as [f|]; [|eexists _, _; reflexivity].
  unfold outcome_of; simpl.
  destruct (json_decode E (data f) Authorization_zero) as [v [e|]]; simpl in *.
  - eexists _, _; reflexivity.
  - congruence.
Qed.

(** ** C1: a failed save *)

(** C1, as stated, fails.  In the scenario with a record file that
    cannot be created the exchange yields the credential of alice, the
    save fails, and restoreAccessToken returns the error of the save and
    no credential. *)
Lemma save_failure_loses_credential :
  let E := Scenario.env (Some (mkError "permission denied")) (Ok Scenario.alice) in
  let r := restoreAccessToken E "abc123" Scenario.cold in
  In (EvObtainAccessToken "abc123" {| Code := "req-1" |} (Ok Scenario.alice)) (events_of r)
  /\ In (EvCreate (authFile E) (Some (mkError "permission denied"))) (events_of r)
  /\ outcome_of r = Ret (Err (mkError "permission denied"))
  /\ outcome_of r <> Ret (Ok Scenario.alice).
Proof.
  vm_compute. repeat split; try discriminate;
    repeat (first [left; reflexivity | right]).
Qed.

(** C1, amended.  When the load has failed, the acquisition has
    returned a credential and the save returns an error, restoreAccessToken
    returns that error in place of the credential: a failed save is
    fatal to the call. *)
Theorem restoreAccessToken_save_failure (E : Env) (consumerKey : string)
    (w w1 w2 w3 : world) (v a : Authorization) (e0 e : error)
    (evs1 evs2 evs3 : list event) :
  loadJSONFromFile E (authFile E) Authorization_zero w = (Ret (v, Some e0), w1, evs1) ->
  obtainAccessToken E consumerKey w1 = (Ret (Ok a), w2, evs2) ->
  saveJSONToFile E (authFile E) a w2 = (Ret (Some e), w3, evs3) ->
  outcome_of (restoreAccessToken E consumerKey w) = Ret (Err e).
Proof.
  intros Hload Hobtain Hsave.
  rewrite (restoreAccessToken_miss _ _ _ _ _ _ _ Hload), Hobtain, Hsave.
  reflexivity.
Qed.

Lemma restoreAccessToken_save_failure_witness :
  outcome_of (restoreAccessToken
                (Scenario.env (Some (mkError "permission denied")) (Ok Scenario.alice))
                "abc123" Scenario.cold)
    = Ret (Err (mkError "permission denied")).
Proof.
  pose (E := Scenario.env (Some (mkError "permission denied")) (Ok Scenario.alice)).
  pose (r1 := loadJSONFromFile E (authFile E) Authorization_zero Scenario.cold).
  pose (r2 := obtainAccessToken E "abc123" (world_of r1)).
  pose (r3 := saveJSONToFile E (authFile E) Scenario.alice (world_of r2)).
  apply (restoreAccessToken_save_failure E "abc123" Scenario.cold
           (world_of r1) (world_of r2) (world_of r3)
           Authorization_zero Scenario.alice
           (ErrNotExist (authFile E)) (mkError "permission denied")
           (events_of r1) (events_of r2) (events_of r3));
    vm_compute; reflexivity.
Defined.

(** ** C2: the cache short-circuit *)

(** C2.  With a record file that opens and that the decoder accepts,
    restoreAccessToken returns what the decoder read and leaves the
    world as it was; its whole log is the open, the decode and the close
    of the record file: no acquisition step and no write to any file. *)
Theorem restoreAccessToken_cache_hit (E : Env) (consumerKey : string) (w : world)
    (f : file) (a : Authorization) :
  open_error E (authFile E) = None ->
  files w !! authFile E = Some f ->
  json_decode E (data f) Authorization_zero = (a, None) ->
  restoreAccessToken E consumerKey w
    = (Ret (Ok a), w,
       [EvOpen (authFile E) None; EvDecode (authFile E) None; EvClose (authFile E)])
  /\ acquisition_steps (events_of (restoreAccessToken E consumerKey w)) = []
  /\ Forall (fun e => writes_file e = false) (events_of (restoreAccessToken E consumerKey w)).
Proof.
  intros Hopen Hfile Hdec.
  assert (Hrun : restoreAccessToken E consumerKey w
    = (Ret (Ok a), w,
       [EvOpen (authFile E) None; EvDecode (authFile E) None; EvClose (authFile E)])).
  { unfold_go. rewrite Hopen, Hfile. simpl. rewrite Hfile, Hdec. reflexivity. }
  rewrite Hrun. split; [reflexivity | split; [reflexivity | ]].
  unfold events_of; simpl. repeat constructor.
Qed.

Lemma restoreAccessToken_cache_hit_witness :
  restoreAccessToken Scenario.happy "abc123" Scenario.warm
    = (Ret (Ok Scenario.alice), Scenario.warm,
       [EvOpen (authFile Scenario.happy) None; EvDecode (authFile Scenario.happy) None;
        EvClose (authFile Scenario.happy)]).
Proof.
  refine (proj1 (restoreAccessToken_cache_hit Scenario.happy "abc123" Scenario.warm
                   {| data := Scenario.plain_encode Scenario.alice; perm := 420 |}
                   Scenario.alice _ _ _)); vm_compute; reflexivity.
Defined.

(** ** C3: no record without a completed exchange *)

(** An event that writes lies beyond a prefix that does not. *)
Lemma write_after_quiet_prefix (quiet : list event) :
  forall rest pre e post,
    Forall (fun e => writes_file e = false) quiet ->
    quiet ++ rest = pre ++ e :: post ->
    writes_file e = true ->
    exists pre', pre = quiet ++ pre'.
Proof.
  induction quiet as [|q quiet IH]; intros rest pre e post Hq Heq He.
  - exists pre. reflexivity.
  - inversion Hq as [|? ? Hq1 Hq2]; subst.
    destruct pre as [|p pre]; simpl in Heq; inversion Heq; subst.
    + congruence.
    + destruct (IH _ _ _ _ Hq2 H1 He) as [pre' ->]. exists pre'. reflexivity.
Qed.

(** The log of restoreAccessToken: either nothing is written at all,
    or the log splits into a part without writes, which holds the
    request credential, the signal and the access credential, and the
    save that follows it. *)
Lemma restoreAccessToken_log (E : Env) (consumerKey : string) (w : world) :
  (files (world_of (restoreAccessToken E consumerKey w)) = files w
   /\ Forall (fun e => writes_file e = false) (events_of (restoreAccessToken E consumerKey w)))
  \/ (exists quiet saving rt a,
        events_of (restoreAccessToken E consumerKey w) = quiet ++ saving
        /\ Forall (fun e => writes_file e = false) quiet
        /\ In (EvObtainRequestToken consumerKey (server_URL E) (Ok rt)) quiet
        /\ In EvRecv quiet
        /\ In (EvObtainAccessToken consumerKey rt (Ok a)) quiet).
Proof.
  destruct (loadJSONFromFile_quiet E (authFile E) Authorization_zero w)
    as (Hw & Hq & _ & [v e] & Ho).
  destruct (loadJSONFromFile E (authFile E) Authorization_zero w) as [[o1 w1] evs1] eqn:Hload.
  unfold world_of, events_of, outcome_of in Hw, Hq, Ho; simpl in Hw, Hq, Ho; subst o1 w1.
  destruct e as [e|].
  2:{ left. rewrite (restoreAccessToken_hit _ _ _ _ _ _ Hload). split; [reflexivity | exact Hq]. }
  rewrite (restoreAccessToken_miss _ _ _ _ _ _ _ Hload).
  rewrite obtainAccessToken_run. cbv zeta.
  destruct (auth_ObtainRequestToken E consumerKey (server_URL E)) as [rt|err].
  2:{ left. split; [reflexivity|]. unfold events_of; simpl.
      apply Forall_app; split; [exact Hq | repeat constructor]. }
  destruct (serve_until_signal (requests w)) as [served [rest|]] eqn:Hserve;
    destruct (serve_until_signal_quiet _ _ _ Hserve) as (Hsq & Hsteps & _).
  2:{ left. split; [reflexivity|]. unfold events_of; simpl.
      apply Forall_app; split; [exact Hq|].
      repeat (constructor; [reflexivity|]). exact Hsq. }
  destruct (auth_ObtainAccessToken E consumerKey rt) as [a|err] eqn:Hex.
  - right.
    destruct (saveJSONToFile E (authFile E) a (set_requests rest w)) as [[o3 w3] evs3].
    eexists _, evs3, rt, a. unfold events_of; cbn [snd].
    split; [reflexivity|]. split; [|split; [|split]].
    + apply Forall_app; split; [exact Hq|]. simpl.
      repeat (constructor; [reflexivity|]).
      apply Forall_app; split; [exact Hsq | repeat constructor].
    + apply in_or_app; right. simpl. tauto.
    + apply in_or_app; right. simpl. do 5 right.
      apply in_or_app; left.
      assert (Hin : In AwaitSignal (acquisition_steps served))
        by (rewrite Hsteps; left; reflexivity).
      unfold acquisition_steps in Hin.
      apply list_elem_of_In, list_elem_of_omap in Hin.
      destruct Hin as (ev & Hev & Hstep). apply list_elem_of_In in Hev.
      destruct ev; try discriminate Hstep. exact Hev.
    + apply in_or_app; right. simpl. do 5 right.
      apply in_or_app; right. left. reflexivity.
  - left. split; [reflexivity|]. unfold events_of; simpl.
    apply Forall_app; split; [exact Hq|].
    repeat (constructor; [reflexivity|]).
    apply Forall_app; split; [exact Hsq | repeat constructor].
Qed.

(** C3.  In every run of restoreAccessToken, a call that creates,
    truncates or writes a file comes after the request credential was
    obtained, the signal received and the exchange answered with an
    access credential.  So a run whose log holds no successful exchange
    (the exchange failed, or the flow stopped before it) leaves every
    file as it was and makes no such call. *)
Theorem no_record_without_exchange (E : Env) (consumerKey : string) (w : world) :
  (forall pre e post,
     events_of (restoreAccessToken E consumerKey w) = pre ++ e :: post ->
     writes_file e = true ->
     exists rt a,
       In (EvObtainRequestToken consumerKey (server_URL E) (Ok rt)) pre
       /\ In EvRecv pre
       /\ In (EvObtainAccessToken consumerKey rt (Ok a)) pre)
  /\ ((forall rt a,
         ~ In (EvObtainAccessToken consumerKey rt (Ok a))
              (events_of (restoreAccessToken E consumerKey w))) ->
      files (world_of (restoreAccessToken E consumerKey w)) = files w
      /\ Forall (fun e => writes_file e = false)
           (events_of (restoreAccessToken E consumerKey w))).
Proof.
  destruct (restoreAccessToken_log E consumerKey w)
    as [[Hfiles Hquiet] | (quiet & saving & rt & a & Hlog & Hq & Hreq & Hrecv & Hex)].
  - split; [|intros _; split; assumption].
    intros pre e post Heq He. exfalso.
    rewrite Heq in Hquiet. apply Forall_app in Hquiet. destruct Hquiet as [_ Hquiet].
    inversion Hquiet; subst. congruence.
  - split.
    + intros pre e post Heq He. rewrite Hlog in Heq.
      destruct (write_after_quiet_prefix _ _ _ _ _ Hq Heq He) as [pre' ->].
      exists rt, a. repeat split; apply in_or_app; left; assumption.
    + intros Hnone. exfalso. apply (Hnone rt a). rewrite Hlog.
      apply in_or_app; left; exact Hex.
Qed.

Lemma no_record_without_exchange_witness :
  files (world_of (restoreAccessToken (Scenario.env None (Err (mkError "403 Forbidden")))
                     "abc123" Scenario.cold))
    = files Scenario.cold
  /\ Forall (fun e => writes_file e = false)
       (events_of (restoreAccessToken (Scenario.env None (Err (mkError "403 Forbidden")))
                     "abc123" Scenario.cold)).
Proof.
  apply (proj2 (no_record_without_exchange (Scenario.env None (Err (mkError "403 Forbidden")))
                  "abc123" Scenario.cold)).
  intros rt a. vm_compute. intros H.
  repeat (destruct H as [H | H]; [discriminate H|]). exact H.
Defined.

(** ** C4: the order of the acquisition steps *)

(** C4, as stated, fails.  In the scenario, which starts without a
    record file and ends with the credential, the listener is bound
    before the request credential is asked for, not after the URL is
    built. *)
Lemma acquisition_order_as_claimed_fails :
  let r := restoreAccessToken Scenario.happy "abc123" Scenario.cold in
  files Scenario.cold !! authFile Scenario.happy = None
  /\ outcome_of r = Ret (Ok Scenario.alice)
  /\ acquisition_steps (events_of r)
       = [ListenerBind; RequestCredential; URLConstruction; AwaitSignal; Exchange; Persist]
  /\ acquisition_steps (events_of r)
       <> [RequestCredential; URLConstruction; ListenerBind; AwaitSignal; Exchange; Persist].
Proof.
  vm_compute. repeat split; discriminate.
Qed.

(** C4, amended.  A run of restoreAccessToken that starts with a
    missing or malformed record file and returns a credential performs
    exactly the steps listener bind, request-credential, URL
    construction, await-signal, exchange, persist, in that order and
    once each. *)
Theorem acquisition_order (E : Env) (consumerKey : string) (w : world) (a : Authorization) :
  record_unusable E w ->
  outcome_of (restoreAccessToken E consumerKey w) = Ret (Ok a) ->
  acquisition_steps (events_of (restoreAccessToken E consumerKey w))
    = [ListenerBind; RequestCredential; URLConstruction; AwaitSignal; Exchange; Persist].
Proof.
  intros Hbad Hok.
  destruct (record_unusable_load E w Hbad) as (v & e & Ho).
  destruct (loadJSONFromFile_quiet E (authFile E) Authorization_zero w)
    as (_ & _ & Hsteps & _).
  destruct (loadJSONFromFile E (authFile E) Authorization_zero w) as [[o1 w1] evs1] eqn:Hload.
  unfold outcome_of, events_of in Ho, Hsteps; simpl in Ho, Hsteps; subst o1.
  rewrite (restoreAccessToken_miss _ _ _ _ _ _ _ Hload) in *.
  rewrite obtainAccessToken_run in *. cbv zeta in *.
  destruct (auth_ObtainRequestToken E consumerKey (server_URL E)) as [rt|err];
    [|discriminate Hok].
  destruct (serve_until_signal (requests w1)) as [served [rest|]] eqn:Hserve;
    [|discriminate Hok].
  destruct (serve_until_signal_quiet _ _ _ Hserve) as (_ & Hawait & _).
  destruct (auth_ObtainAccessToken E consumerKey rt) as [a'|err]; [|discriminate Hok].
  rewrite saveJSONToFile_run in *. cbv zeta in *.
  destruct (create_error E (authFile E)); [discriminate Hok|].
  destruct (write_error E (authFile E)); [discriminate Hok|].
  clear Hok. unfold events_of, acquisition_steps in *. cbn [snd].
  change (omap step_of served = [AwaitSignal]) in Hawait.
  rewrite !omap_app, Hsteps, Hawait. reflexivity.
Qed.

Lemma acquisition_order_witness :
  acquisition_steps (events_of (restoreAccessToken Scenario.happy "abc123" Scenario.cold))
    = [ListenerBind; RequestCredential; URLConstruction; AwaitSignal; Exchange; Persist].
Proof.
  apply (acquisition_order Scenario.happy "abc123" Scenario.cold Scenario.alice);
    vm_compute; [exact I | reflexivity].
Defined.

(** ** C5: the channel *)

Module RendezvousFacts.
Import Rendezvous.

Lemma inv_start : inv start.
Proof. repeat split. Qed.

Lemma step_inv (l : label) (s s' : state) : inv s -> step l s = Some s' -> inv s'.
Proof.
  intros (Hc & Hq & Hs) H. destruct l as [path|i| |]; simpl in H.
  - inversion H; subst. repeat split; assumption.
  - destruct (handlers s !! i) as [[|[msg code|key val|str|] todo]|]; try discriminate;
      try (inversion H; subst; repeat split; assumption).
    rewrite Hq, Hc in H.
    destruct (orch s) eqn:Ho; simpl in H; try discriminate.
    inversion H; subst. unfold inv; simpl. rewrite Hs. repeat split; assumption.
  - destruct (orch s) eqn:Ho; try discriminate.
    inversion H; subst. unfold inv; simpl. repeat split; assumption.
  - rewrite Hq in H. destruct (orch s); discriminate.
Qed.

Lemma run_inv (ls : list label) : forall s s', inv s -> run ls s = Some s' -> inv s'.
Proof.
  induction ls as [|l ls IH]; intros s s' Hinv H; simpl in H.
  - inversion H; subst; assumption.
  - destruct (step l s) as [s1|] eqn:Hstep; [|discriminate].
    exact (IH _ _ (step_inv _ _ _ Hinv Hstep) H).
Qed.

(** Once the orchestrator is past its receive, a handler at its send
    stays there whatever happens next. *)
Lemma step_blocked (l : label) (s s' : state) (i : nat) :
  inv s -> orch s = Received -> at_send i s -> step l s = Some s' ->
  orch s' = Received /\ at_send i s'.
Proof.
  intros (Hc & Hq & _) Ho [todo Hi] H. destruct l as [path|j| |]; simpl in H.
  - inversion H; subst; simpl. split; [assumption|].
    exists todo. simpl. rewrite lookup_app_l; [assumption|].
    eapply lookup_lt_Some; eassumption.
  - destruct (handlers s !! j) as [[|act todo']|] eqn:Hj; try discriminate.
    assert (Hne : act = HSend \/ j <> i).
    { destruct (Nat.eq_dec j i) as [->|]; [left|right; assumption]. congruence. }
    destruct act; try (destruct Hne as [Hne|Hne]; [discriminate Hne|];
      inversion H; subst; simpl; split; [assumption|];
      exists todo; simpl; rewrite list_lookup_insert_ne; assumption).
    rewrite Ho, Hq, Hc in H. discriminate.
  - rewrite Ho in H. discriminate.
  - rewrite Ho in H. discriminate.
Qed.

Lemma run_blocked (ls : list label) : forall s s' i,
  inv s -> orch s = Received -> at_send i s -> run ls s = Some s' -> at_send i s'.
Proof.
  induction ls as [|l ls IH]; intros s s' i Hinv Ho Hi H; simpl in H.
  - inversion H; subst; assumption.
  - destruct (step l s) as [s1|] eqn:Hstep; [|discriminate].
    destruct (step_blocked _ _ _ _ Hinv Ho Hi Hstep) as [Ho1 Hi1].
    exact (IH _ _ _ (step_inv _ _ _ Hinv Hstep) Ho1 Hi1 H).
Qed.

End RendezvousFacts.

(** C5, as stated, fails.  [ch] is made without a buffer, and after two
    requests on the callback path, once the orchestrator has received
    the signal of the first, the handler of the second stands at its
    send and no schedule ever moves it. *)
Lemma second_callback_blocks :
  chan_capacity = 0%nat
  /\ exists s,
       Rendezvous.run
         [Rendezvous.Request "/"; Rendezvous.Request "/"; Rendezvous.Arrive;
          Rendezvous.Act 0; Rendezvous.Act 0; Rendezvous.Act 0;
          Rendezvous.Act 1; Rendezvous.Act 1] Rendezvous.start = Some s
       /\ Rendezvous.orch s = Rendezvous.Received
       /\ Rendezvous.at_send 1 s
       /\ forall ls s', Rendezvous.run ls s = Some s' -> Rendezvous.at_send 1 s'.
Proof.
  split; [reflexivity|].
  exists {| Rendezvous.capacity := 0; Rendezvous.queued := 0;
            Rendezvous.orch := Rendezvous.Received;
            Rendezvous.handlers := [[]; [HSend]]; Rendezvous.sent := 1 |}.
  split; [vm_compute; reflexivity|].
  split; [reflexivity|]. split; [exists []; reflexivity|].
  intros ls s' H.
  eapply RendezvousFacts.run_blocked; [ | | | exact H].
  - split; [reflexivity | split; reflexivity].
  - reflexivity.
  - exists []. reflexivity.
Qed.

(** C5, amended.  The channel between the handler and the orchestrator
    is unbuffered.  In every schedule at most one send completes, the one
    the orchestrator receives; a handler that comes to its send after
    that stays blocked there for ever; and the handler of a single
    request on a callback path does complete its send, together with the
    orchestrator's receive. *)
Theorem rendezvous_unbuffered :
  chan_capacity = 0%nat
  /\ (forall ls s,
        Rendezvous.run ls Rendezvous.start = Some s ->
        (Rendezvous.sent s <= 1)%nat
        /\ (Rendezvous.sent s = 1%nat <-> Rendezvous.orch s = Rendezvous.Received))
  /\ (forall ls s i ls' s',
        Rendezvous.run ls Rendezvous.start = Some s ->
        Rendezvous.orch s = Rendezvous.Received ->
        Rendezvous.at_send i s ->
        Rendezvous.run ls' s = Some s' ->
        Rendezvous.at_send i s')
  /\ (forall path,
        path <> "/favicon.ico" ->
        exists s,
          Rendezvous.run
            [Rendezvous.Request path; Rendezvous.Arrive;
             Rendezvous.Act 0; Rendezvous.Act 0; Rendezvous.Act 0] Rendezvous.start = Some s
          /\ Rendezvous.orch s = Rendezvous.Received
          /\ Rendezvous.handlers s = [[]]
          /\ Rendezvous.sent s = 1%nat).
Proof.
  split; [reflexivity|]. split; [|split].
  - intros ls s H.
    destruct (RendezvousFacts.run_inv _ _ _ RendezvousFacts.inv_start H) as (_ & _ & Hs).
    rewrite Hs. destruct (Rendezvous.orch s); split; try lia; split; congruence.
  - intros ls s i ls' s' H Ho Hi H'.
    exact (RendezvousFacts.run_blocked _ _ _ _
             (RendezvousFacts.run_inv _ _ _ RendezvousFacts.inv_start H) Ho Hi H').
  - intros path Hpath. unfold Rendezvous.run, Rendezvous.step, Rendezvous.start, handler.
    destruct (String.eqb_spec path "/favicon.ico") as [Heq|_]; [contradiction|].
    simpl. eexists. repeat split.
Qed.

(** ** C6: what the handler answers *)



(** ** C7: save, then load *)



(** ** C8: the consumer key *)

Lemma owner_only_created (E : Env) : owner_only (create_mode E mode_0600).
Proof.
  unfold owner_only, create_mode.
  assert (Hswap : N.land (N.ldiff mode_0600 (umask E)) 63
                  = N.ldiff (N.land mode_0600 63) (umask E)).
  { apply N.bits_inj. intros n.
    rewrite N.land_spec, !N.ldiff_spec, N.land_spec.
    destruct (N.testbit mode_0600 n), (N.testbit (umask E) n), (N.testbit 63 n); reflexivity. }
  rewrite Hswap. change (N.land mode_0600 63) with 0%N. apply N.ldiff_0_l.
Qed.

(** C8, as stated, fails.  With no consumer key file and 5000 bytes
    on standard input before the newline, getConsumerKey returns the first 4096 of
    them: what fits the buffer of the reader, not the first line. *)
Lemma long_first_line_is_cut :
  let r := getConsumerKey Scenario.piped Scenario.fresh in
  files Scenario.fresh !! consumerKeyPath Scenario.piped = None
  /\ first_line (stdin Scenario.piped) = Scenario.repeat_byte 5000 "k"
  /\ outcome_of r = Ret (Scenario.repeat_byte 4096 "k")
  /\ outcome_of r <> Ret (first_line (stdin Scenario.piped)).
Proof.
  cbv zeta. split; [reflexivity|]. split; [vm_compute; reflexivity|].
  assert (H : outcome_of (getConsumerKey Scenario.piped Scenario.fresh)
              = Ret (Scenario.repeat_byte 4096 "k")) by (vm_compute; reflexivity).
  split; [exact H|]. rewrite H. intros Heq.
  apply (f_equal (fun o => match o with
                          | Ret s => (String.length s =? 4096)%nat
                          | _ => false
                          end)) in Heq.
  vm_compute in Heq. discriminate Heq.
Qed.

(** C8, amended.  With a readable consumer key file getConsumerKey
    returns its first line and does nothing else.  When the file cannot
    be read, standard input is not empty and the file can be written, it
    logs the prompt, reads standard input through a reader with a
    buffer of 4096 bytes, writes what it read to the file with mode 0600
    and returns it: the first line without its line ending when that
    line is shorter than 4096 bytes, and otherwise the bytes that fit the
    buffer; a file created by this write gives nothing to group and
    others. *)
Theorem getConsumerKey_reads_or_prompts (E : Env) (w : world) :
  (forall f,
     open_error E (consumerKeyPath E) = None ->
     files w !! consumerKeyPath E = Some f ->
     getConsumerKey E w
       = (Ret (first_line (data f)), w, [EvReadFile (consumerKeyPath E) None]))
  /\ (forall e,
        outcome_of (ioutil_ReadFile E (consumerKeyPath E) w) = Ret (Err e) ->
        stdin E <> EmptyString ->
        create_error E (consumerKeyPath E) = None ->
        write_error E (consumerKeyPath E) = None ->
        let fits := (String.length (first_line (stdin E)) <? defaultBufSize)%nat in
        let line := if fits then typed_line (stdin E)
                    else without_cr (take_bytes defaultBufSize (stdin E)) in
        outcome_of (getConsumerKey E w) = Ret line
        /\ events_of (getConsumerKey E w)
             = [EvReadFile (consumerKeyPath E) (Some e);
                EvLog (logged_line ("Can't get consumer key: " +:+ error_msg e));
                EvLog (prompt +:+ nl);
                EvReadLine line (negb fits) None;
                EvWriteFile (consumerKeyPath E) line mode_0600 None]
        /\ exists f,
             files (world_of (getConsumerKey E w)) !! consumerKeyPath E = Some f
             /\ data f = line
             /\ (files w !! consumerKeyPath E = None -> owner_only (perm f))).
Proof.
  split.
  - intros f Hopen Hf. unfold getConsumerKey, ioutil_ReadFile, bind, ret.
    rewrite Hopen, Hf. simpl.
    unfold bytes_SplitN_2, first_line.
    destruct (cut_lf (data f)) as [[b a]|]; reflexivity.
  - intros e Hread Hne Hcreate Hwrite fits line.
    assert (Hrl : bufio_ReadLine defaultBufSize (stdin E) = (line, negb fits, None)).
    { subst line fits.
      destruct (Nat.ltb_spec (String.length (first_line (stdin E))) defaultBufSize).
      - apply bufio_ReadLine_fits; assumption.
      - apply bufio_ReadLine_cut; assumption. }
    unfold outcome_of, ioutil_ReadFile in Hread; simpl in Hread.
    assert (Hr : match open_error E (consumerKeyPath E) with
                 | Some e0 => Err e0
                 | None => match files w !! consumerKeyPath E with
                           | Some f => Ok (data f)
                           | None => Err (ErrNotExist (consumerKeyPath E))
                           end
                 end = Err e) by congruence.
    clear Hread.
    unfold getConsumerKey, ioutil_ReadFile, Stdin_ReadLine, ioutil_WriteFile,
      log_Print, log_Output, bind, ret, emit, panic, outcome_of, events_of, world_of.
    rewrite Hr, Hrl, Hcreate, Hwrite. cbn [fst snd err_of app].
    split; [reflexivity|]. split.
    + unfold logged_line at 2, prompt. reflexivity.
    + eexists. split; [apply lookup_insert_eq|]. split; [reflexivity|].
      intros Hnone. cbn [perm]. rewrite Hnone. apply owner_only_created.
Qed.

Lemma getConsumerKey_reads_or_prompts_witness :
  getConsumerKey Scenario.happy Scenario.cold
    = (Ret "abc123", Scenario.cold, [EvReadFile (consumerKeyPath Scenario.happy) None])
  /\ outcome_of (getConsumerKey Scenario.happy Scenario.fresh) = Ret "abc123"
  /\ outcome_of (getConsumerKey Scenario.piped Scenario.fresh)
       = Ret (Scenario.repeat_byte 4096 "k").
Proof.
  split; [|split].
  - apply (proj1 (getConsumerKey_reads_or_prompts Scenario.happy Scenario.cold)
             Scenario.key_file); vm_compute; reflexivity.
  - refine (proj1 (proj2 (getConsumerKey_reads_or_prompts Scenario.happy Scenario.fresh)
                     (ErrNotExist (consumerKeyPath Scenario.happy)) _ _ _ _));
      vm_compute; try reflexivity; discriminate.
  - refine (proj1 (proj2 (getConsumerKey_reads_or_prompts Scenario.piped Scenario.fresh)
                     (ErrNotExist (consumerKeyPath Scenario.piped)) _ _ _ _));
      vm_compute; try reflexivity; discriminate.
Defined.

(** ** C9: the tags of the add command *)

(** Setting flags never defines a new name. *)
Lemma FlagSet_Parse_undefined (given : list (string * string)) :
  forall (set set' : gmap string string) (name : string),
    FlagSet_Parse set given = Some set' ->
    set !! name = None -> set' !! name = None.
Proof.
  induction given as [|[n v] more IH]; intros set set' name H Hname; simpl in H.
  - inversion H; subst; assumption.
  - unfold FlagSet_Set in H.
    destruct (set !! n) as [old|] eqn:Hn; [|discriminate].
    apply (IH _ _ name H).
    rewrite lookup_insert_ne; [assumption | congruence].
Qed.

(** The names the add command defines: none of them is "--tags". *)
Lemma add_flagSet_names :
  map fst (map_to_list add_flagSet) ≡ₚ ["title"; "t"; "tags"; "tg"]
  /\ add_flagSet !! "--tags" = None.
Proof.
  split; [|vm_compute; reflexivity].
  unfold add_flagSet, add_Flags, StringFlag_Apply. simpl.
  rewrite !map_to_list_insert by (vm_compute; reflexivity).
  rewrite map_to_list_empty. simpl.
  apply NoDup_Permutation.
  - repeat (constructor; [vm_compute; intros H; inversion H; subst;
      repeat match goal with H' : _ ∈ _ |- _ => inversion H'; subst; clear H' end|]).
    constructor.
  - repeat (constructor; [vm_compute; intros H; inversion H; subst;
      repeat match goal with H' : _ ∈ _ |- _ => inversion H'; subst; clear H' end|]).
    constructor.
  - intros x. rewrite !elem_of_cons, !elem_of_nil. tauto.
Qed.

(** C9.  Whatever flags the command line of add supplies, every call
    of client.Add that commandAdd makes carries the empty string as its
    tags: the lookup is by the name "--tags", which the flag set of the
    command, with the names title, t, tags and tg, never holds. *)
Theorem commandAdd_tags_empty (E : Env) (given : list (string * string))
    (set : gmap string string) (args : list string) (meta : gmap string Client)
    (w : world) :
  FlagSet_Parse add_flagSet given = Some set ->
  Context_String {| Args := args; flagSet := set; Metadata := meta |} "--tags" = EmptyString
  /\ forall client options err,
       In (EvAdd client options err)
          (events_of (commandAdd E {| Args := args; flagSet := set; Metadata := meta |} w)) ->
       Tags options = EmptyString.
Proof.
  intros Hparse.
  pose proof (FlagSet_Parse_undefined _ _ _ "--tags" Hparse (proj2 add_flagSet_names)) as Hno.
  assert (Hstr : Context_String {| Args := args; flagSet := set; Metadata := meta |} "--tags"
                 = EmptyString).
  { unfold Context_String; cbn [flagSet]. rewrite Hno. reflexivity. }
  split; [exact Hstr|].
  intros client options err. unfold commandAdd. rewrite Hstr.
  destruct (String.eqb (Args_First _) EmptyString); [intros []|].
  cbn [String.eqb negb URL Title Tags].
  unfold Metadata_client, Client_Add, bind, ret, panic, emit, os_Exit, events_of.
  cbn [Metadata].
  destruct (meta !! "client") as [cl|]; [|intros []].
  cbn [fst snd].
  destruct (negb _), (client_Add E cl _); cbn; intros Hin;
    repeat (destruct Hin as [Hin|Hin];
            [try discriminate Hin; inversion Hin; subst; reflexivity|]);
    contradiction.
Qed.

Lemma commandAdd_tags_empty_witness :
  FlagSet_Parse add_flagSet Scenario.add_given = Some Scenario.add_set
  /\ Scenario.add_set !! "tags" = Some "a,b"
  /\ events_of (commandAdd Scenario.happy (Scenario.add_context Scenario.add_set) Scenario.warm)
       = [EvAdd Scenario.client
            {| URL := "https://example.com/"; Title := "T"; Tags := EmptyString |} None]
  /\ forall client options err,
       In (EvAdd client options err)
          (events_of (commandAdd Scenario.happy (Scenario.add_context Scenario.add_set)
                        Scenario.warm)) ->
       Tags options = EmptyString.
Proof.
  split; [vm_compute; reflexivity|].
  split; [vm_compute; reflexivity|].
  split; [vm_compute; reflexivity|].
  apply (proj2 (commandAdd_tags_empty Scenario.happy Scenario.add_given Scenario.add_set
                  ["https://example.com/"] {[ "client" := Scenario.client ]} Scenario.warm
                  ltac:(vm_compute; reflexivity))).
Defined.

(** ** C10: archive and the error of the service *)

(** C10.  With a first argument that [strconv.Atoi] accepts and the
    client in place, commandArchive calls Modify once, prints its result
    and its error, and returns nil whatever that error is; main then
    exits with no failure status. *)
Theorem commandArchive_returns_nil (E : Env) (c : Context) (w : world)
    (itemID : Z) (client : Client) :
  strconv_Atoi (intSize E) (Args_First c) = Some itemID ->
  Metadata c !! "client" = Some client ->
  commandArchive E c w
    = (Ret None, w,
       [EvModify client (api_NewArchiveAction itemID)
          (fst (client_Modify E client (api_NewArchiveAction itemID)))
          (snd (client_Modify E client (api_NewArchiveAction itemID)));
        EvPrintModify
          (fst (client_Modify E client (api_NewArchiveAction itemID)))
          (snd (client_Modify E client (api_NewArchiveAction itemID)))])
  /\ bind (commandArchive E c) (main_exit) w
     = (Ret tt, w, events_of (commandArchive E c w)).
Proof.
  intros Hnum Hclient.
  assert (Hrun : commandArchive E c w
    = (Ret None, w,
       [EvModify client (api_NewArchiveAction itemID)
          (fst (client_Modify E client (api_NewArchiveAction itemID)))
          (snd (client_Modify E client (api_NewArchiveAction itemID)));
        EvPrintModify
          (fst (client_Modify E client (api_NewArchiveAction itemID)))
          (snd (client_Modify E client (api_NewArchiveAction itemID)))])).
  { unfold commandArchive. rewrite Hnum.
    destruct (String.eqb_spec (Args_First c) EmptyString) as [Hempty|_].
    - rewrite Hempty in Hnum. discriminate Hnum.
    - unfold Metadata_client, Client_Modify, bind, ret, emit. rewrite Hclient. reflexivity. }
  split; [exact Hrun|].
  unfold bind. rewrite Hrun. unfold main_exit, ret, events_of. simpl.
  reflexivity.
Qed.

Lemma commandArchive_returns_nil_witness :
  snd (client_Modify Scenario.happy Scenario.client (api_NewArchiveAction 1234))
    = Some (mkError "403 Forbidden")
  /\ outcome_of (commandArchive Scenario.happy Scenario.archive_context Scenario.warm)
     = Ret None
  /\ outcome_of (bind (commandArchive Scenario.happy Scenario.archive_context) (main_exit)
                   Scenario.warm) = Ret tt.
Proof.
  split; [reflexivity|].
  destruct (commandArchive_returns_nil Scenario.happy Scenario.archive_context Scenario.warm
              1234 Scenario.client ltac:(vm_compute; reflexivity) ltac:(vm_compute; reflexivity))
    as [H1 H2].
  rewrite H1, H2. split; reflexivity.
Defined.

(** * Further properties of main.go *)

(** ** The listener and the wait *)

Lemma handler_probe : handler "/favicon.ico" = [HError "Not Found" 404].
Proof. reflexivity. Qed.


(** The log of a wait holds only served requests and the receive. *)
Lemma serve_until_signal_events (reqs : list string) :
  forall evs pending,
    serve_until_signal reqs = (evs, pending) ->
    Forall (fun e => match e with EvServe _ _ | EvRecv => True | _ => False end) evs.
Proof.
  induction reqs as [|p rest IH]; intros evs pending H; simpl in H.
  - inversion H; subst. constructor.
  - destruct (emits_signal (handler p)).
    + inversion H; subst. repeat constructor.
    + destruct (serve_until_signal rest) as [evs' pending'] eqn:Hrest.
      inversion H; subst. constructor; [exact I | exact (IH _ _ eq_refl)].
Qed.



(** X2.  When the request credential was issued and nothing but favicon
    probes ever reaches the listener, obtainAccessToken never returns:
    every probe is answered 404, no exchange is attempted and the
    listener is never closed. *)
Theorem probes_never_authorize (E : Env) (consumerKey : string) (w : world)
    (requestToken : RequestToken) :
  auth_ObtainRequestToken E consumerKey (server_URL E) = Ok requestToken ->
  Forall (fun p => p = "/favicon.ico") (requests w) ->
  outcome_of (obtainAccessToken E consumerKey w) = Hang
  /\ events_of (obtainAccessToken E consumerKey w)
     = shown E consumerKey requestToken ++ map (fun p => EvServe p not_found) (requests w)
  /\ existsb is_exchange (events_of (obtainAccessToken E consumerKey w)) = false
  /\ ~ In EvServerClose (events_of (obtainAccessToken E consumerKey w)).
Proof.
  intros Hreq Hprobes.
  assert (Hserve : serve_until_signal (requests w)
                   = (map (fun p => EvServe p not_found) (requests w), None)).
  { induction Hprobes as [|p probes Hp _ IH]; [reflexivity|].
    subst p. cbn [map serve_until_signal]. rewrite handler_probe.
    cbn [emits_signal existsb is_send orb]. rewrite IH. reflexivity. }
  rewrite obtainAccessToken_run. cbv zeta. rewrite Hreq, Hserve.
  unfold outcome_of, events_of, shown; cbn [fst snd].
  split; [reflexivity|]. split; [reflexivity|]. split.
  - rewrite existsb_app. cbn [existsb is_exchange orb].
    clear. induction (requests w) as [|p l IH]; [reflexivity | exact IH].
  - cbn [app In]. intros [H|[H|[H|[H|H]]]]; try discriminate H.
    apply in_map_iff in H. destruct H as (p & H & _). discriminate H.
Qed.

Lemma probes_never_authorize_witness :
  outcome_of (obtainAccessToken Scenario.happy "abc123"
                {| files := ∅; requests := ["/favicon.ico"; "/favicon.ico"] |}) = Hang.
Proof.
  refine (proj1 (probes_never_authorize Scenario.happy "abc123"
                   {| files := ∅; requests := ["/favicon.ico"; "/favicon.ico"] |}
                   {| Code := "req-1" |} _ _)).
  - reflexivity.
  - repeat constructor.
Defined.


(** ** restoreAccessToken beyond the claims *)



(** X5.  Whatever happens, restoreAccessToken touches no file but the
    record file. *)
Theorem restoreAccessToken_other_files (E : Env) (consumerKey : string) (w : world)
    (path : string) :
  path <> authFile E ->
  files (world_of (restoreAccessToken E consumerKey w)) !! path = files w !! path.
Proof.
  intros Hpath.
  destruct (loadJSONFromFile_quiet E (authFile E) Authorization_zero w)
    as (Hw & _ & _ & [v e] & Ho).
  destruct (loadJSONFromFile E (authFile E) Authorization_zero w) as [[o1 w1] evs1] eqn:Hload.
  unfold outcome_of, world_of in Ho, Hw; simpl in Ho, Hw; subst o1 w1.
  destruct e as [e|].
  2:{ rewrite (restoreAccessToken_hit _ _ _ _ _ _ Hload). reflexivity. }
  rewrite (restoreAccessToken_miss _ _ _ _ _ _ _ Hload).
  rewrite obtainAccessToken_run. cbv zeta.
  destruct (auth_ObtainRequestToken E consumerKey (server_URL E)) as [rt|err]; [|reflexivity].
  destruct (serve_until_signal (requests w)) as [served [rest|]]; [|reflexivity].
  destruct (auth_ObtainAccessToken E consumerKey rt) as [a|err]; [|reflexivity].
  rewrite saveJSONToFile_run. cbv zeta.
  destruct (create_error E (authFile E)); [reflexivity|].
  destruct (write_error E (authFile E)); unfold world_of, set_files; cbn [fst snd files];
    rewrite lookup_insert_ne by congruence; reflexivity.
Qed.

Lemma restoreAccessToken_other_files_witness :
  files (world_of (restoreAccessToken Scenario.happy "abc123" Scenario.cold))
    !! consumerKeyPath Scenario.happy
  = Some Scenario.key_file.
Proof.
  rewrite (restoreAccessToken_other_files Scenario.happy "abc123" Scenario.cold
             (consumerKeyPath Scenario.happy)).
  - reflexivity.
  - vm_compute. discriminate.
Defined.

(** A successful run after a failed load has saved the credential it
    returns: the record file holds its encoding, with the mode the file
    had, or the mode of a new file. *)
Lemma restoreAccessToken_saved (E : Env) (consumerKey : string) (w : world)
    (a : Authorization) :
  record_unusable E w ->
  outcome_of (restoreAccessToken E consumerKey w) = Ret (Ok a) ->
  files (world_of (restoreAccessToken E consumerKey w)) !! authFile E
    = Some {| data := json_encode E a;
              perm := match files w !! authFile E with
                      | Some f => perm f
                      | None => create_mode E mode_0666
                      end |}.
Proof.
  intros Hbad Hok.
  destruct (record_unusable_load E w Hbad) as (v & cause & Ho).
  destruct (loadJSONFromFile_quiet E (authFile E) Authorization_zero w) as (Hw & _).
  destruct (loadJSONFromFile E (authFile E) Authorization_zero w) as [[o1 w1] evs1] eqn:Hload.
  unfold outcome_of, world_of in Ho, Hw; simpl in Ho, Hw; subst o1 w1.
  rewrite (restoreAccessToken_miss _ _ _ _ _ _ _ Hload) in *.
  rewrite obtainAccessToken_run in *. cbv zeta in *.
  destruct (auth_ObtainRequestToken E consumerKey (server_URL E)) as [rt|err];
    [|discriminate Hok].
  destruct (serve_until_signal (requests w)) as [served [rest|]]; [|discriminate Hok].
  destruct (auth_ObtainAccessToken E consumerKey rt) as [a'|err]; [|discriminate Hok].
  rewrite saveJSONToFile_run in *. cbv zeta in *.
  destruct (create_error E (authFile E)); [discriminate Hok|].
  destruct (write_error E (authFile E)); [discriminate Hok|].
  unfold outcome_of in Hok; cbn [fst] in Hok. inversion Hok; subst a'.
  unfold world_of, set_files, set_requests; cbn [fst snd files].
  apply lookup_insert_eq.
Qed.

(** X6.  After a run of restoreAccessToken that returned a credential,
    a second run in the world it left, with a record file that opens
    and a decoder that reads back what the encoder wrote, returns the
    same credential from the file alone: open, decode, close. *)
Theorem second_run_is_cached (E : Env) (consumerKey consumerKey' : string) (w : world)
    (a : Authorization) :
  outcome_of (restoreAccessToken E consumerKey w) = Ret (Ok a) ->
  open_error E (authFile E) = None ->
  json_decode E (json_encode E a) Authorization_zero = (a, None) ->
  restoreAccessToken E consumerKey' (world_of (restoreAccessToken E consumerKey w))
    = (Ret (Ok a), world_of (restoreAccessToken E consumerKey w),
       [EvOpen (authFile E) None; EvDecode (authFile E) None; EvClose (authFile E)]).
Proof.
  intros Hok Hopen Hcodec.
  apply restoreAccessToken_hit. rewrite loadJSONFromFile_run, Hopen.
  destruct (files w !! authFile E) as [f|] eqn:Hf.
  - destruct (json_decode E (data f) Authorization_zero) as [v [e|]] eqn:Hdec.
    + assert (Hbad : record_unusable E w).
      { unfold record_unusable. rewrite Hf, Hdec. discriminate. }
      rewrite (restoreAccessToken_saved _ _ _ _ Hbad Hok). cbn [data].
      rewrite Hcodec. reflexivity.
    + assert (Hload : loadJSONFromFile E (authFile E) Authorization_zero w
                      = (Ret (v, None), w,
                         [EvOpen (authFile E) None; EvDecode (authFile E) None;
                          EvClose (authFile E)])).
      { rewrite loadJSONFromFile_run, Hopen, Hf, Hdec. reflexivity. }
      rewrite (restoreAccessToken_hit _ _ _ _ _ _ Hload) in *.
      unfold outcome_of in Hok; cbn [fst] in Hok. inversion Hok; subst v.
      unfold world_of; cbn [fst snd]. rewrite Hf, Hdec. reflexivity.
  - assert (Hbad : record_unusable E w) by (unfold record_unusable; rewrite Hf; exact I).
    rewrite (restoreAccessToken_saved _ _ _ _ Hbad Hok). cbn [data].
    rewrite Hcodec. reflexivity.
Qed.

Lemma second_run_is_cached_witness :
  outcome_of (restoreAccessToken Scenario.happy "other"
                (world_of (restoreAccessToken Scenario.happy "abc123" Scenario.cold)))
    = Ret (Ok Scenario.alice).
Proof.
  rewrite (second_run_is_cached Scenario.happy "abc123" "other" Scenario.cold Scenario.alice);
    vm_compute; reflexivity.
Defined.

Lemma ldiff_zero_iff (a u : N) : N.ldiff a u = 0%N <-> N.land u a = a.
Proof.
  split; intros H; apply N.bits_inj; intros n;
    apply (f_equal (fun x => N.testbit x n)) in H;
    rewrite ?N.land_spec, ?N.ldiff_spec, ?N.bits_0 in *;
    destruct (N.testbit a n), (N.testbit u n); simpl in *; congruence.
Qed.

(** X7.  A record file that restoreAccessToken creates has mode 0666
    less the umask: it is closed to group and others only when the umask
    takes away their read and write bits (octal 066).  A record file
    that was there keeps its mode. *)
Theorem record_file_mode (E : Env) (consumerKey : string) (w : world) (a : Authorization) :
  record_unusable E w ->
  outcome_of (restoreAccessToken E consumerKey w) = Ret (Ok a) ->
  exists f,
    files (world_of (restoreAccessToken E consumerKey w)) !! authFile E = Some f
    /\ data f = json_encode E a
    /\ (forall old, files w !! authFile E = Some old -> perm f = perm old)
    /\ (files w !! authFile E = None ->
        perm f = N.ldiff mode_0666 (umask E)
        /\ (owner_only (perm f) <-> N.land (umask E) 54 = 54%N)).
Proof.
  intros Hbad Hok. eexists. split; [exact (restoreAccessToken_saved _ _ _ _ Hbad Hok)|].
  split; [reflexivity|]. cbn [perm]. split.
  - intros old ->. reflexivity.
  - intros ->. split; [reflexivity|].
    unfold owner_only, create_mode.
    assert (Hswap : N.land (N.ldiff mode_0666 (umask E)) 63 = N.ldiff 54 (umask E)).
    { change 54%N with (N.land mode_0666 63). apply N.bits_inj. intros n.
      rewrite N.land_spec, !N.ldiff_spec, N.land_spec.
      destruct (N.testbit mode_0666 n), (N.testbit (umask E) n), (N.testbit 63 n); reflexivity. }
    rewrite Hswap. apply ldiff_zero_iff.
Qed.

Lemma record_file_mode_witness :
  exists f,
    files (world_of (restoreAccessToken Scenario.happy "abc123" Scenario.cold))
      !! authFile Scenario.happy = Some f
    /\ perm f = 420%N
    /\ ~ owner_only (perm f).
Proof.
  destruct (record_file_mode Scenario.happy "abc123" Scenario.cold Scenario.alice)
    as (f & Hf & _ & _ & Hnew).
  - vm_compute. exact I.
  - vm_compute. reflexivity.
  - exists f. split; [exact Hf|].
    destruct (Hnew ltac:(vm_compute; reflexivity)) as [Hperm Hiff].
    split; [rewrite Hperm; reflexivity|].
    intros Howner. apply Hiff in Howner. vm_compute in Howner. discriminate Howner.
Defined.

(** An event that a predicate singles out stands where the one event
    with that property stands. *)
Lemma split_at_the_one {A : Type} (P : A -> bool) (l1 : list A) (x : A) (l2 : list A) :
  forall pre e post,
    existsb P l1 = false -> existsb P l2 = false -> P e = true ->
    l1 ++ x :: l2 = pre ++ e :: post ->
    pre = l1 /\ e = x /\ post = l2.
Proof.
  induction l1 as [|y l1 IH]; intros pre e post H1 H2 He Heq.
  - destruct pre as [|p pre]; simpl in Heq; inversion Heq; subst.
    + repeat split.
    + exfalso. assert (Hin : In e (pre ++ e :: post)) by (apply in_or_app; right; left; reflexivity).
      assert (Hex : existsb P (pre ++ e :: post) = true)
        by (apply existsb_exists; exists e; split; assumption).
      congruence.
  - simpl in H1. apply orb_false_iff in H1. destruct H1 as [Hy H1].
    destruct pre as [|p pre]; simpl in Heq; inversion Heq; subst.
    + congruence.
    + destruct (IH _ _ _ H1 H2 He H3) as (-> & -> & ->). repeat split.
Qed.

Lemma not_in_split {A : Type} (P : A -> bool) (l pre post : list A) (e : A) :
  existsb P l = false -> P e = true -> l <> pre ++ e :: post.
Proof.
  intros Hl He Heq. subst l.
  assert (Hex : existsb P (pre ++ e :: post) = true).
  { apply existsb_exists. exists e. split; [|assumption].
    apply in_or_app; right; left; reflexivity. }
  congruence.
Qed.

Lemma no_steps_no_exchange (evs : list event) :
  acquisition_steps evs = [] -> existsb is_exchange evs = false.
Proof.
  unfold acquisition_steps. induction evs as [|e evs IH]; [reflexivity|].
  simpl. destruct e; simpl; try discriminate; exact IH.
Qed.

Lemma served_no_exchange (reqs : list string) (evs : list event) (pending : option (list string)) :
  serve_until_signal reqs = (evs, pending) -> existsb is_exchange evs = false.
Proof.
  intros H. pose proof (serve_until_signal_events _ _ _ H) as Hev. clear H.
  induction Hev as [|e evs He _ IH]; [reflexivity|].
  simpl. rewrite IH. destruct e; try contradiction; reflexivity.
Qed.

(** X8.  In every run of restoreAccessToken the exchange is attempted
    at most once, with the consumer key of the call and the request
    credential the service issued, and only after the authorization URL
    was printed and the signal of the callback was received. *)
Theorem exchange_follows_signal (E : Env) (consumerKey : string) (w : world)
    (pre post : list event) (consumerKey' : string) (requestToken : RequestToken)
    (answer : result Authorization) :
  events_of (restoreAccessToken E consumerKey w)
    = pre ++ EvObtainAccessToken consumerKey' requestToken answer :: post ->
  consumerKey' = consumerKey
  /\ answer = auth_ObtainAccessToken E consumerKey requestToken
  /\ In (EvObtainRequestToken consumerKey (server_URL E) (Ok requestToken)) pre
  /\ In (EvStdout (auth_GenerateAuthorizationURL E requestToken (server_URL E) +:+ nl)) pre
  /\ last pre = Some EvRecv
  /\ existsb is_exchange pre = false
  /\ existsb is_exchange post = false.
Proof.
  intros Hsplit.
  destruct (loadJSONFromFile_quiet E (authFile E) Authorization_zero w)
    as (Hw & _ & Hsteps & [v e] & Ho).
  apply no_steps_no_exchange in Hsteps.
  destruct (loadJSONFromFile E (authFile E) Authorization_zero w) as [[o1 w1] evs1] eqn:Hload.
  unfold outcome_of, world_of, events_of in Ho, Hw, Hsteps; simpl in Ho, Hw, Hsteps; subst o1 w1.
  destruct e as [e|].
  2:{ rewrite (restoreAccessToken_hit _ _ _ _ _ _ Hload) in Hsplit.
      exfalso.
      exact (not_in_split is_exchange _ pre post
               (EvObtainAccessToken consumerKey' requestToken answer) Hsteps eq_refl Hsplit). }
  rewrite (restoreAccessToken_miss _ _ _ _ _ _ _ Hload) in Hsplit.
  rewrite obtainAccessToken_run in Hsplit. cbv zeta in Hsplit.
  destruct (auth_ObtainRequestToken E consumerKey (server_URL E)) as [rt|err].
  2:{ exfalso. refine (not_in_split is_exchange _ pre post
                (EvObtainAccessToken consumerKey' requestToken answer) _ eq_refl Hsplit).
      unfold events_of; cbn [snd]. rewrite existsb_app, Hsteps. reflexivity. }
  destruct (serve_until_signal (requests w)) as [served [rest|]] eqn:Hserve;
    pose proof (served_no_exchange _ _ _ Hserve) as Hserved.
  2:{ exfalso. refine (not_in_split is_exchange _ pre post
                (EvObtainAccessToken consumerKey' requestToken answer) _ eq_refl Hsplit).
      unfold events_of; cbn [snd]. rewrite existsb_app, Hsteps. cbn [app existsb is_exchange orb].
      exact Hserved. }
  assert (Hlast : exists front, served = front ++ [EvRecv]).
  { clear - Hserve. revert served Hserve.
    induction (requests w) as [|p l IH]; intros served H; simpl in H; [discriminate|].
    destruct (emits_signal (handler p)).
    - inversion H; subst. exists [EvServe p (respond (handler p))]. reflexivity.
    - destruct (serve_until_signal l) as [evs' pending'] eqn:Hl.
      inversion H; subst. destruct (IH _ eq_refl) as [front ->].
      exists (EvServe p (respond (handler p)) :: front). reflexivity. }
  destruct Hlast as [front Hfront].
  set (quiet := evs1 ++ [EvLog (error_msg e +:+ nl)]
                ++ shown E consumerKey rt ++ served).
  assert (Hquiet : existsb is_exchange quiet = false).
  { unfold quiet. rewrite existsb_app, Hsteps. cbn [app existsb is_exchange orb shown].
    exact Hserved. }
  assert (Hshape : exists tail,
             pre ++ EvObtainAccessToken consumerKey' requestToken answer :: post
               = quiet ++ EvObtainAccessToken consumerKey rt
                            (auth_ObtainAccessToken E consumerKey rt) :: tail
             /\ existsb is_exchange tail = false).
  { rewrite <- Hsplit. clear Hsplit.
    destruct (auth_ObtainAccessToken E consumerKey rt) as [a|err] eqn:Hex.
    - rewrite saveJSONToFile_run. cbv zeta.
      destruct (create_error E (authFile E)); [|destruct (write_error E (authFile E))];
        eexists; unfold events_of, quiet, shown; cbn [snd];
        (split; [rewrite <- ?app_assoc; cbn [app]; rewrite <- ?app_assoc; cbn [app]; reflexivity
                | reflexivity]).
    - eexists. unfold events_of, quiet, shown; cbn [snd].
      split; [rewrite <- ?app_assoc; cbn [app]; rewrite <- ?app_assoc; cbn [app]; reflexivity
             | reflexivity]. }
  destruct Hshape as (tail & Heq & Htail).
  symmetry in Heq.
  destruct (split_at_the_one is_exchange _ _ _ pre
              (EvObtainAccessToken consumerKey' requestToken answer) post
              Hquiet Htail eq_refl Heq)
    as (-> & Hev & ->).
  inversion Hev; subst.
  split; [reflexivity|]. split; [reflexivity|].
  unfold quiet, shown. split; [|split; [|split; [|split; assumption]]].
  - apply in_or_app; right. cbn. tauto.
  - apply in_or_app; right. cbn. tauto.
  - rewrite !app_assoc. apply last_snoc.
Qed.

Lemma exchange_follows_signal_witness :
  last [EvOpen (authFile Scenario.happy) (Some (ErrNotExist (authFile Scenario.happy)));
        EvLog (error_msg (ErrNotExist (authFile Scenario.happy)) +:+ nl);
        EvNewServer (server_URL Scenario.happy);
        EvObtainRequestToken "abc123" (server_URL Scenario.happy) (Ok {| Code := "req-1" |});
        EvGenerateAuthorizationURL {| Code := "req-1" |} (server_URL Scenario.happy)
          (auth_GenerateAuthorizationURL Scenario.happy {| Code := "req-1" |}
             (server_URL Scenario.happy));
        EvStdout (auth_GenerateAuthorizationURL Scenario.happy {| Code := "req-1" |}
                    (server_URL Scenario.happy) +:+ nl);
        EvServe "/favicon.ico" not_found; EvServe "/" authorized; EvRecv]
    = Some EvRecv.
Proof.
  refine (proj1 (proj2 (proj2 (proj2 (proj2
            (exchange_follows_signal Scenario.happy "abc123" Scenario.cold _
               [EvServerClose;
                EvCreate (authFile Scenario.happy) None;
                EvEncode (authFile Scenario.happy) (Scenario.plain_encode Scenario.alice) None;
                EvClose (authFile Scenario.happy)]
               "abc123" {| Code := "req-1" |} (Ok Scenario.alice) _)))))).
  vm_compute. reflexivity.
Defined.

(** ** getConsumerKey beyond the claim *)

Lemma cut_lf_before (s : string) : forall b a, cut_lf s = Some (b, a) -> cut_lf b = None.
Proof.
  induction s as [|c s IH]; intros b a H; simpl in H; [discriminate|].
  destruct (Ascii.eqb c lf) eqn:Hc.
  - inversion H; subst. reflexivity.
  - destruct (cut_lf s) as [[b' a']|] eqn:Hs; [|discriminate].
    inversion H; subst. simpl. rewrite Hc, (IH _ _ eq_refl). reflexivity.
Qed.

Lemma cut_lf_prefix (s : string) : forall n, cut_lf s = None -> cut_lf (take_bytes n s) = None.
Proof.
  unfold take_bytes. induction s as [|c s IH]; intros n H; simpl in H.
  - destruct n; reflexivity.
  - destruct n as [|n]; [reflexivity|]. simpl.
    destruct (Ascii.eqb c lf); [discriminate|].
    destruct (cut_lf s) as [[b a]|]; [discriminate|].
    rewrite (IH n eq_refl). reflexivity.
Qed.

Lemma without_cr_no_lf (s : string) : cut_lf s = None -> cut_lf (without_cr s) = None.
Proof.
  intros H. unfold without_cr, chop.
  destruct ((0 <? String.length s)%nat && byte_from_end 1 cr s)%bool; [|exact H].
  apply (cut_lf_prefix s _ H).
Qed.

(** What [ReadLine] hands back holds no newline. *)
Lemma bufio_ReadLine_no_lf (input : string) :
  cut_lf (fst (fst (bufio_ReadLine defaultBufSize input))) = None.
Proof.
  destruct input as [|c s]; [reflexivity|].
  destruct (Nat.ltb_spec (String.length (first_line (String c s))) defaultBufSize) as [Hfit|Hcut].
  - rewrite bufio_ReadLine_fits by (assumption || discriminate).
    cbn [fst]. unfold typed_line.
    destruct (cut_lf (String c s)) as [[b a]|] eqn:Hcut; [|exact Hcut].
    apply without_cr_no_lf. exact (cut_lf_before _ _ _ Hcut).
  - rewrite bufio_ReadLine_cut by assumption. cbn [fst].
    apply without_cr_no_lf. apply cut_lf_take_bytes_none. assumption.
Qed.

Lemma bufio_ReadLine_answers (input : string) :
  input <> EmptyString -> snd (bufio_ReadLine defaultBufSize input) = None.
Proof.
  intros Hne.
  destruct (Nat.ltb_spec (String.length (first_line input)) defaultBufSize) as [Hfit|Hcut].
  - rewrite bufio_ReadLine_fits by assumption. reflexivity.
  - rewrite bufio_ReadLine_cut by assumption. reflexivity.
Qed.

(** The run of getConsumerKey when the file cannot be read. *)
Lemma getConsumerKey_prompt_run (E : Env) (w : world) (e : error) :
  outcome_of (ioutil_ReadFile E (consumerKeyPath E) w) = Ret (Err e) ->
  getConsumerKey E w =
    let asked :=
      [EvReadFile (consumerKeyPath E) (Some e);
       EvLog (logged_line ("Can't get consumer key: " +:+ error_msg e));
       EvLog (prompt +:+ nl)] in
    let rl := bufio_ReadLine defaultBufSize (stdin E) in
    let read := asked ++ [EvReadLine (fst (fst rl)) (snd (fst rl)) (snd rl)] in
    match snd rl with
    | Some err => (Panic err, w, read)
    | None =>
        let '(o, w', evs) :=
          ioutil_WriteFile E (consumerKeyPath E) (fst (fst rl)) mode_0600 w in
        (match o with
         | Ret (Some err) => Panic err
         | Ret None => Ret (fst (fst rl))
         | Panic p => Panic p
         | Exit c => Exit c
         | Hang => Hang
         end, w', read ++ evs)
    end.
Proof.
  intros Hread. unfold outcome_of, ioutil_ReadFile in Hread; simpl in Hread.
  assert (Hr : match open_error E (consumerKeyPath E) with
               | Some e0 => Err e0
               | None => match files w !! consumerKeyPath E with
                         | Some f => Ok (data f)
                         | None => Err (ErrNotExist (consumerKeyPath E))
                         end
               end = Err e) by congruence.
  clear Hread. cbv zeta.
  unfold getConsumerKey, ioutil_ReadFile, Stdin_ReadLine, log_Print, log_Output,
    bind, ret, emit, panic.
  rewrite Hr. cbn [fst snd err_of app].
  destruct (bufio_ReadLine defaultBufSize (stdin E)) as [[line isPrefix] [err|]];
    cbn [fst snd]; [reflexivity|].
  destruct (ioutil_WriteFile E (consumerKeyPath E) line mode_0600 w) as [[o w'] evs].
  destruct o as [[err|]| | |]; cbn [app]; rewrite ?app_nil_r; reflexivity.
Qed.

(** X9.  When the consumer key file cannot be read, getConsumerKey
    panics rather than return without a key: with EOF when standard
    input is at its end, in which case it writes nothing, and with the
    error of the write when the file cannot be created, in which case
    the key that was typed is lost and no file has changed. *)
Theorem getConsumerKey_gives_up (E : Env) (w : world) (e : error) :
  outcome_of (ioutil_ReadFile E (consumerKeyPath E) w) = Ret (Err e) ->
  (stdin E = EmptyString ->
     outcome_of (getConsumerKey E w) = Panic (mkError "EOF")
     /\ world_of (getConsumerKey E w) = w
     /\ existsb writes_file (events_of (getConsumerKey E w)) = false)
  /\ (forall refusal,
        stdin E <> EmptyString ->
        create_error E (consumerKeyPath E) = Some refusal ->
        outcome_of (getConsumerKey E w) = Panic refusal
        /\ world_of (getConsumerKey E w) = w).
Proof.
  intros Hread. rewrite (getConsumerKey_prompt_run _ _ _ Hread). cbv zeta. split.
  - intros ->. unfold outcome_of, world_of, events_of. cbn. repeat split.
  - intros refusal Hne Hcreate.
    rewrite (bufio_ReadLine_answers _ Hne).
    unfold ioutil_WriteFile. rewrite Hcreate. split; reflexivity.
Qed.

Lemma getConsumerKey_gives_up_witness :
  outcome_of (getConsumerKey Cases.silent Scenario.fresh) = Panic (mkError "EOF")
  /\ outcome_of (getConsumerKey Cases.readonly Scenario.fresh)
     = Panic (mkError "permission denied").
Proof.
  split.
  - refine (proj1 (proj1 (getConsumerKey_gives_up Cases.silent Scenario.fresh
                            (ErrNotExist (consumerKeyPath Cases.silent)) _) _));
      reflexivity.
  - refine (proj1 (proj2 (getConsumerKey_gives_up Cases.readonly Scenario.fresh
                            (ErrNotExist (consumerKeyPath Cases.readonly)) _)
                     (mkError "permission denied") _ _));
      try reflexivity. discriminate.
Defined.

(** X10.  A key that getConsumerKey returns holds no newline, whether
    it comes from the file or from standard input. *)
Theorem consumer_key_is_one_line (E : Env) (w : world) (key : string) :
  outcome_of (getConsumerKey E w) = Ret key ->
  cut_lf key = None /\ forall i, String.get i key <> Some lf.
Proof.
  intros Hkey. assert (Hcut : cut_lf key = None); [|split; [exact Hcut | exact (cut_lf_none_get _ Hcut)]].
  destruct (ioutil_ReadFile E (consumerKeyPath E) w) as [[o1 w1] evs1] eqn:Hread.
  assert (Ho1 : exists r, o1 = Ret r).
  { unfold ioutil_ReadFile in Hread. inversion Hread. eexists; reflexivity. }
  destruct Ho1 as [[content|e] ->].
  - unfold getConsumerKey, bind in Hkey. rewrite Hread in Hkey.
    unfold bytes_SplitN_2 in Hkey.
    destruct (cut_lf content) as [[b a]|] eqn:Hc; cbn in Hkey;
      unfold outcome_of in Hkey; cbn in Hkey; inversion Hkey; subst.
    + exact (cut_lf_before _ _ _ Hc).
    + exact Hc.
  - assert (Hr : outcome_of (ioutil_ReadFile E (consumerKeyPath E) w) = Ret (Err e))
      by (rewrite Hread; reflexivity).
    rewrite (getConsumerKey_prompt_run _ _ _ Hr) in Hkey. cbv zeta in Hkey.
    pose proof (bufio_ReadLine_no_lf (stdin E)) as Hline.
    destruct (snd (bufio_ReadLine defaultBufSize (stdin E))); [discriminate Hkey|].
    destruct (ioutil_WriteFile E (consumerKeyPath E) _ mode_0600 w) as [[o w'] evs].
    destruct o as [[err|]| | |]; try discriminate Hkey.
    unfold outcome_of in Hkey; cbn in Hkey. inversion Hkey; subst. exact Hline.
Qed.

Lemma consumer_key_is_one_line_witness :
  cut_lf "abc123" = None /\ forall i, String.get i "abc123" <> Some lf.
Proof.
  apply (consumer_key_is_one_line Scenario.happy Scenario.cold "abc123").
  reflexivity.
Defined.

(** X11.  When there is no consumer key file, the key that
    getConsumerKey takes from standard input and writes is the key the
    next call reads back from the file, without a prompt. *)
Theorem prompted_key_is_read_back (E : Env) (w : world) :
  open_error E (consumerKeyPath E) = None ->
  files w !! consumerKeyPath E = None ->
  stdin E <> EmptyString ->
  create_error E (consumerKeyPath E) = None ->
  write_error E (consumerKeyPath E) = None ->
  exists key,
    outcome_of (getConsumerKey E w) = Ret key
    /\ getConsumerKey E (world_of (getConsumerKey E w))
       = (Ret key, world_of (getConsumerKey E w), [EvReadFile (consumerKeyPath E) None]).
Proof.
  intros Hopen Hnone Hne Hcreate Hwrite.
  assert (Hread : outcome_of (ioutil_ReadFile E (consumerKeyPath E) w)
                  = Ret (Err (ErrNotExist (consumerKeyPath E)))).
  { unfold outcome_of, ioutil_ReadFile. cbn. rewrite Hopen, Hnone. reflexivity. }
  rewrite (getConsumerKey_prompt_run _ _ _ Hread). cbv zeta.
  rewrite (bufio_ReadLine_answers _ Hne).
  pose proof (bufio_ReadLine_no_lf (stdin E)) as Hline.
  set (key := fst (fst (bufio_ReadLine defaultBufSize (stdin E)))) in *.
  unfold ioutil_WriteFile. rewrite Hcreate, Hwrite, Hnone.
  exists key. unfold outcome_of, world_of; cbn [fst snd]. split; [reflexivity|].
  unfold getConsumerKey, ioutil_ReadFile, bind, ret, set_files; cbn [files].
  rewrite Hopen, lookup_insert_eq. cbn [data].
  unfold bytes_SplitN_2. rewrite Hline. reflexivity.
Qed.

Lemma prompted_key_is_read_back_witness :
  exists key,
    outcome_of (getConsumerKey Scenario.happy Scenario.fresh) = Ret key
    /\ getConsumerKey Scenario.happy (world_of (getConsumerKey Scenario.happy Scenario.fresh))
       = (Ret key, world_of (getConsumerKey Scenario.happy Scenario.fresh),
          [EvReadFile (consumerKeyPath Scenario.happy) None]).
Proof.
  apply (prompted_key_is_read_back Scenario.happy Scenario.fresh);
    try reflexivity. discriminate.
Defined.

(** ** app.Before *)

(** X12.  With a readable consumer key file and a record file that
    opens and decodes, app.Before reads the two files and nothing else:
    no prompt, no listener, no call to the service, no write; the client
    it stores carries the first line of the key file and the access
    token of the record. *)
Theorem Before_from_files (E : Env) (w : world) (keyFile recordFile : file)
    (a : Authorization) :
  open_error E (consumerKeyPath E) = None ->
  files w !! consumerKeyPath E = Some keyFile ->
  open_error E (authFile E) = None ->
  files w !! authFile E = Some recordFile ->
  json_decode E (data recordFile) Authorization_zero = (a, None) ->
  Before E w
    = (Ret {[ "client" := api_NewClient (first_line (data keyFile)) (AccessToken a) ]}, w,
       [EvReadFile (consumerKeyPath E) None;
        EvOpen (authFile E) None; EvDecode (authFile E) None; EvClose (authFile E)]).
Proof.
  intros Hkopen Hkey Hropen Hrec Hdec.
  assert (Hk : getConsumerKey E w
               = (Ret (first_line (data keyFile)), w, [EvReadFile (consumerKeyPath E) None])).
  { unfold getConsumerKey, ioutil_ReadFile, bind, ret. rewrite Hkopen, Hkey. simpl.
    unfold bytes_SplitN_2, first_line.
    destruct (cut_lf (data keyFile)) as [[b rest]|]; reflexivity. }
  assert (Hr : restoreAccessToken E (first_line (data keyFile)) w
               = (Ret (Ok a), w,
                  [EvOpen (authFile E) None; EvDecode (authFile E) None;
                   EvClose (authFile E)])).
  { apply restoreAccessToken_hit. rewrite loadJSONFromFile_run, Hropen, Hrec, Hdec.
    reflexivity. }
  unfold Before, bind at 1. rewrite Hk. unfold bind at 1. rewrite Hr. reflexivity.
Qed.

Lemma Before_from_files_witness :
  outcome_of (Before Scenario.happy Scenario.warm) = Ret {[ "client" := Scenario.client ]}.
Proof.
  rewrite (Before_from_files Scenario.happy Scenario.warm Scenario.key_file
             {| data := Scenario.plain_encode Scenario.alice; perm := 420 |} Scenario.alice);
    vm_compute; reflexivity.
Defined.

(** ** The archive and add commands beyond the claims *)

(** X13.  commandArchive refuses a missing or empty first argument with
    "item id not found" and one that is not a number with "item id
    should be number"; in both cases it has not looked for the client
    and has not called the service. *)
Theorem commandArchive_refuses (E : Env) (c : Context) (w : world) :
  (Args_First c = EmptyString ->
     commandArchive E c w = (Ret (Some (errors_New "item id not found")), w, []))
  /\ (Args_First c <> EmptyString ->
      strconv_Atoi (intSize E) (Args_First c) = None ->
      commandArchive E c w = (Ret (Some (errors_New "item id should be number")), w, []))
  /\ (Args c = [] -> Args_First c = EmptyString).
Proof.
  split; [|split].
  - intros H. unfold commandArchive. rewrite H. reflexivity.
  - intros Hne Hnum. unfold commandArchive. rewrite Hnum.
    destruct (String.eqb_spec (Args_First c) EmptyString); [contradiction | reflexivity].
  - intros H. unfold Args_First. rewrite H. reflexivity.
Qed.

Lemma commandArchive_refuses_witness :
  commandArchive Scenario.happy {| Args := []; flagSet := ∅; Metadata := ∅ |} Scenario.warm
    = (Ret (Some (errors_New "item id not found")), Scenario.warm, [])
  /\ commandArchive Scenario.happy {| Args := ["12a"]; flagSet := ∅; Metadata := ∅ |}
       Scenario.warm
     = (Ret (Some (errors_New "item id should be number")), Scenario.warm, []).
Proof.
  split.
  - apply (proj1 (commandArchive_refuses Scenario.happy
                    {| Args := []; flagSet := ∅; Metadata := ∅ |} Scenario.warm)).
    reflexivity.
  - apply (proj1 (proj2 (commandArchive_refuses Scenario.happy
                           {| Args := ["12a"]; flagSet := ∅; Metadata := ∅ |} Scenario.warm)));
      [discriminate | reflexivity].
Defined.

(** X14.  With a URL and the client in place commandAdd calls Add once,
    with the URL and the value of the title flag.  When Add succeeds it
    returns nil; when Add fails it prints the error on standard error
    and ends the process with status 1 itself, so that main never sees
    the error.  Without a URL it returns "url not found" and calls
    nothing. *)
Theorem commandAdd_outcomes (E : Env) (c : Context) (w : world) :
  (Args_First c = EmptyString ->
     commandAdd E c w = (Ret (Some (errors_New "url not found")), w, []))
  /\ (forall client,
        Args_First c <> EmptyString ->
        Metadata c !! "client" = Some client ->
        let options :=
          {| URL := Args_First c;
             Title := Context_String c "title";
             Tags := Context_String c "--tags" |} in
        commandAdd E c w =
          match client_Add E client options with
          | None => (Ret None, w, [EvAdd client options None])
          | Some err =>
              (Exit 1, w, [EvAdd client options (Some err); EvStderr (error_msg err +:+ nl)])
          end
        /\ (forall err, client_Add E client options = Some err ->
            outcome_of (bind (commandAdd E c) main_exit w) = Exit 1)).
Proof.
  split.
  - intros H. unfold commandAdd. rewrite H. reflexivity.
  - intros client Hurl Hclient options.
    assert (Hrun : commandAdd E c w =
              match client_Add E client options with
              | None => (Ret None, w, [EvAdd client options None])
              | Some err =>
                  (Exit 1, w, [EvAdd client options (Some err); EvStderr (error_msg err +:+ nl)])
              end).
    { unfold commandAdd. subst options.
      destruct (String.eqb_spec (Args_First c) EmptyString); [contradiction|].
      destruct (String.eqb_spec (Context_String c "title") EmptyString) as [Ht|Ht];
        destruct (String.eqb_spec (Context_String c "--tags") EmptyString) as [Hg|Hg];
        rewrite ?Ht, ?Hg; cbn [negb URL Title Tags];
        unfold Metadata_client, Client_Add, bind, ret, emit, os_Exit; rewrite Hclient;
        cbn [fst snd];
        match goal with |- context [client_Add E client ?o] =>
          destruct (client_Add E client o) end; reflexivity. }
    split; [exact Hrun|].
    intros err Herr. unfold bind, outcome_of. rewrite Hrun, Herr. reflexivity.
Qed.

Lemma commandAdd_outcomes_witness :
  commandAdd (Cases.full (mkError "429 Too Many Requests"))
    (Scenario.add_context Scenario.add_set) Scenario.warm
  = (Exit 1, Scenario.warm,
     [EvAdd Scenario.client
        {| URL := "https://example.com/"; Title := "T"; Tags := EmptyString |}
        (Some (mkError "429 Too Many Requests"));
      EvStderr ("429 Too Many Requests" +:+ nl)]).
Proof.
  destruct (proj2 (commandAdd_outcomes (Cases.full (mkError "429 Too Many Requests"))
                     (Scenario.add_context Scenario.add_set) Scenario.warm)
              Scenario.client ltac:(discriminate) ltac:(vm_compute; reflexivity))
    as [Hrun _].
  rewrite Hrun. vm_compute. reflexivity.
Defined.

(** ** The list command *)

(** X15.  The options of a listing: domain, search and tag are the
    values of their flags, and the count is the value of the count flag
    when [strconv.Atoi] accepts it, zero and negative numbers included;
    a count that is absent or not a number leaves the count at 10, with
    no error. *)
Theorem list_options_read (E : Env) (c : Context) :
  list_options E c
    = {| Domain := Context_String c "domain";
         Search := Context_String c "search";
         Tag := Context_String c "tag";
         Count := match strconv_Atoi (intSize E) (Context_String c "count") with
                  | Some i => i
                  | None => 10
                  end |}.
Proof.
  unfold list_options.
  destruct (String.eqb_spec (Context_String c "domain") EmptyString) as [Hd|Hd];
    destruct (String.eqb_spec (Context_String c "search") EmptyString) as [Hs|Hs];
    destruct (String.eqb_spec (Context_String c "tag") EmptyString) as [Ht|Ht];
    destruct (String.eqb_spec (Context_String c "count") EmptyString) as [Hc|Hc];
    rewrite ?Hd, ?Hs, ?Ht, ?Hc; cbn [negb Domain Search Tag Count strconv_Atoi];
    try reflexivity;
    destruct (strconv_Atoi (intSize E) (Context_String c "count")); reflexivity.
Qed.

(** X16.  When Retrieve fails, commandList returns an error that says
    so and carries the message of the service; it has parsed no template
    and printed nothing, and main reports the error on standard error
    and exits with status 1. *)
Theorem commandList_retrieve_fails (L : ListEnv) (E : Env) (c : Context) (w : world)
    (client : Client) (err : error) :
  Metadata c !! "client" = Some client ->
  client_Retrieve L client (list_options E c) = Err err ->
  commandList L E c
    = (Ret (Some (errors_New ("failed to item retrieve. " +:+ error_msg err))),
       [LRetrieve client (list_options E c) (Some err)])
  /\ printed (snd (commandList L E c)) = []
  /\ (forall failure,
        fst (commandList L E c) = Ret failure ->
        main_exit failure w
          = (Exit 1, w,
             [EvStderr ("Error: " +:+ ("failed to item retrieve. " +:+ error_msg err) +:+ nl)])).
Proof.
  intros Hclient Hfail.
  assert (Hrun : commandList L E c
    = (Ret (Some (errors_New ("failed to item retrieve. " +:+ error_msg err))),
       [LRetrieve client (list_options E c) (Some err)])).
  { unfold commandList. rewrite Hclient, Hfail. reflexivity. }
  rewrite Hrun. split; [reflexivity|]. split; [reflexivity|].
  intros failure Hf. cbn [fst] in Hf. inversion Hf; subst. reflexivity.
Qed.

Lemma commandList_retrieve_fails_witness :
  commandList (Shelf.env (Err (mkError "503"))) Scenario.happy (Shelf.context "5")
    = (Ret (Some (errors_New "failed to item retrieve. 503")),
       [LRetrieve Scenario.client
          {| Domain := EmptyString; Search := EmptyString; Tag := EmptyString; Count := 5 |}
          (Some (mkError "503"))]).
Proof.
  rewrite (proj1 (commandList_retrieve_fails (Shelf.env (Err (mkError "503"))) Scenario.happy
                    (Shelf.context "5") Scenario.warm Scenario.client (mkError "503")
                    ltac:(vm_compute; reflexivity) ltac:(vm_compute; reflexivity))).
  vm_compute. reflexivity.
Defined.

(** The loop hands the items to the template in the order of the
    slice, and stops at the first that fails. *)
Lemma print_items_executed (L : ListEnv) (itemTemplate : option string) (items : list Item) :
  executed (snd (print_items L itemTemplate items)) `prefix_of` items
  /\ (fst (print_items L itemTemplate items) = Ret None ->
      executed (snd (print_items L itemTemplate items)) = items
      /\ printed (snd (print_items L itemTemplate items))
         = flat_map (fun item => [fst (template_Execute L itemTemplate item); nl]) items)
  /\ (forall failure, fst (print_items L itemTemplate items) <> Ret (Some failure))
  /\ fst (print_items L itemTemplate items) <> Hang
  /\ (forall code, fst (print_items L itemTemplate items) <> Exit code).
Proof.
  induction items as [|item more IH]; cbn [print_items].
  - repeat split; try discriminate. apply prefix_nil.
  - destruct (template_Execute L itemTemplate item) as [out [err|]] eqn:Hex.
    + cbn [fst snd]. repeat split; try discriminate.
      unfold executed; cbn. apply prefix_cons, prefix_nil.
    + destruct (print_items L itemTemplate more) as [o evs].
      cbn [fst snd] in *. destruct IH as (Hpre & Hok & Herr & Hhang & Hexit).
      unfold executed, printed in *; cbn [omap list_omap flat_map fst app] in *.
      split; [apply prefix_cons; exact Hpre|]. split; [|repeat split; assumption].
      intros Ho. destruct (Hok Ho) as [He Hp]. cbn. rewrite Hex, He, Hp. split; reflexivity.
Qed.

(** Ascending by [Less] at the indices is ascending by the sort key. *)
Lemma ascending_by_key (s : list Item) :
  (forall i j, (i < j < bySortID_Len s)%nat -> bySortID_Less s j i = Some false) ->
  StronglySorted (fun a b => SortId a <= SortId b) s.
Proof.
  induction s as [|a s IH]; intros H; constructor.
  - apply IH. intros i j Hij.
    assert (H' := H (S i) (S j)). unfold bySortID_Less, bySortID_Len in *.
    change ((a :: s) !! S j) with (s !! j) in H'.
    change ((a :: s) !! S i) with (s !! i) in H'.
    apply H'. cbn [length]. lia.
  - apply Forall_forall. intros b Hb. apply list_elem_of_lookup in Hb.
    destruct Hb as [k Hk].
    assert (Hlt : (k < length s)%nat) by (eapply lookup_lt_Some; eassumption).
    assert (H' := H 0%nat (S k)). unfold bySortID_Less, bySortID_Len in H'.
    change ((a :: s) !! S k) with (s !! k) in H'.
    change ((a :: s) !! 0%nat) with (Some a) in H'.
    rewrite Hk in H'. cbn [length] in H'.
    specialize (H' ltac:(lia)). inversion H' as [Hcmp]. lia.
Qed.

(** X17.  When the listing returns nil, with a sort that keeps the
    promise of [sort.Sort], every retrieved item was handed to the
    template exactly once, in ascending order of SortId, and each
    rendering was followed by an empty line; in every run, also one
    that a template error ends in a panic, the items rendered so far are
    the first ones of the sorted slice. *)
Theorem commandList_prints_sorted (L : ListEnv) (E : Env) (c : Context)
    (client : Client) (items : list Item) :
  sorts_bySortID (sort_Sort L) ->
  Metadata c !! "client" = Some client ->
  client_Retrieve L client (list_options E c) = Ok items ->
  executed (snd (commandList L E c)) `prefix_of` sort_Sort L items
  /\ StronglySorted (fun a b => SortId a <= SortId b) (sort_Sort L items)
  /\ (fst (commandList L E c) = Ret None ->
      executed (snd (commandList L E c)) ≡ₚ items
      /\ StronglySorted (fun a b => SortId a <= SortId b) (executed (snd (commandList L E c)))
      /\ printed (snd (commandList L E c))
         = flat_map (fun item => [fst (template_Execute L (list_template c) item); nl])
             (sort_Sort L items)).
Proof.
  intros Hsort Hclient Hget.
  destruct (Hsort items) as [Hperm Hasc].
  pose proof (ascending_by_key _ Hasc) as Hsorted.
  unfold commandList, list_template. rewrite Hclient, Hget.
  destruct (negb (String.eqb (Context_String c "format") EmptyString)).
  - destruct (template_Parse L (Context_String c "format")) as [err|].
    + cbn [fst snd]. split; [apply prefix_nil|]. split; [exact Hsorted|]. discriminate.
    + destruct (print_items_executed L (Some (Context_String c "format")) (sort_Sort L items))
        as (Hpre & Hok & _).
      destruct (print_items L (Some (Context_String c "format")) (sort_Sort L items))
        as [o evs]. cbn [fst snd] in *.
      change (executed (LRetrieve client (list_options E c) None
                        :: [LParse (Context_String c "format") None] ++ evs))
        with (executed evs).
      change (printed (LRetrieve client (list_options E c) None
                       :: [LParse (Context_String c "format") None] ++ evs))
        with (printed evs).
      split; [exact Hpre|]. split; [exact Hsorted|].
      intros Ho. destruct (Hok Ho) as [He Hp]. rewrite He, Hp.
      split; [exact Hperm|]. split; [exact Hsorted|]. reflexivity.
    - destruct (print_items_executed L None (sort_Sort L items)) as (Hpre & Hok & _).
      destruct (print_items L None (sort_Sort L items)) as [o evs]. cbn [fst snd] in *.
      change (executed (LRetrieve client (list_options E c) None :: [] ++ evs))
        with (executed evs).
      change (printed (LRetrieve client (list_options E c) None :: [] ++ evs))
        with (printed evs).
      split; [exact Hpre|]. split; [exact Hsorted|].
      intros Ho. destruct (Hok Ho) as [He Hp]. rewrite He, Hp.
      split; [exact Hperm|]. split; [exact Hsorted|]. reflexivity.
Qed.

(** In a strongly sorted list a later item is never below an earlier
    one. *)
Lemma StronglySorted_at {A : Type} (R : A -> A -> Prop) (l : list A) :
  StronglySorted R l ->
  forall i j a b, (i < j)%nat -> l !! i = Some a -> l !! j = Some b -> R a b.
Proof.
  induction 1 as [|x l Hl IH Hx]; intros i j a b Hij Hi Hj; [destruct i; discriminate|].
  destruct j as [|j]; [lia|]. change ((x :: l) !! S j) with (l !! j) in Hj.
  destruct i as [|i].
  - inversion Hi; subst. rewrite Forall_forall in Hx. apply Hx.
    apply list_elem_of_lookup. exists j. exact Hj.
  - change ((x :: l) !! S i) with (l !! i) in Hi. apply (IH i j); [lia | assumption..].
Qed.

(** The sort of the shelf keeps the promise of [sort.Sort]. *)
Lemma Shelf_sort_sorts : sorts_bySortID Shelf.sort.
Proof.
  intros s. unfold Shelf.sort. split; [apply merge_sort_Permutation|].
  assert (Htrans : Transitive Shelf.by_key) by (intros a b c; unfold Shelf.by_key; lia).
  assert (Htotal : Total Shelf.by_key) by (intros a b; unfold Shelf.by_key; lia).
  pose proof (StronglySorted_merge_sort Shelf.by_key s) as Hsorted.
  intros i j [Hij Hj]. unfold bySortID_Less, bySortID_Len in *.
  destruct (lookup_lt_is_Some_2 (merge_sort Shelf.by_key s) j Hj) as [b Hb].
  destruct (lookup_lt_is_Some_2 (merge_sort Shelf.by_key s) i ltac:(lia)) as [a Ha].
  rewrite Hb, Ha. f_equal. apply Z.ltb_ge.
  exact (StronglySorted_at _ _ Hsorted i j a b Hij Ha Hb).
Qed.

Lemma commandList_prints_sorted_witness :
  executed (snd (commandList (Shelf.env (Ok [Shelf.cherry; Shelf.apple; Shelf.berry]))
                   Scenario.happy (Shelf.context "3")))
    ≡ₚ [Shelf.cherry; Shelf.apple; Shelf.berry]
  /\ printed (snd (commandList (Shelf.env (Ok [Shelf.cherry; Shelf.apple; Shelf.berry]))
                     Scenario.happy (Shelf.context "3")))
     = ["Apple"; nl; "Berry"; nl; "Cherry"; nl].
Proof.
  destruct (commandList_prints_sorted
              (Shelf.env (Ok [Shelf.cherry; Shelf.apple; Shelf.berry]))
              Scenario.happy (Shelf.context "3") Scenario.client
              [Shelf.cherry; Shelf.apple; Shelf.berry]
              Shelf_sort_sorts ltac:(vm_compute; reflexivity) ltac:(vm_compute; reflexivity))
    as (_ & _ & Hok).
  destruct (Hok ltac:(vm_compute; reflexivity)) as (Hperm & _ & _).
  split; [exact Hperm | vm_compute; reflexivity].
Defined.

(** ** bySortID *)

(** X18.  Swap panics exactly when an index is out of range.  Otherwise
    it exchanges the two items and keeps all others in place: the slice
    it leaves has the same length and the same items, and a second Swap
    of the same indices restores it. *)
Theorem bySortID_Swap_exchanges (s : list Item) (i j : nat) :
  (bySortID_Swap s i j = None <-> (bySortID_Len s <= i \/ bySortID_Len s <= j)%nat)
  /\ forall s',
       bySortID_Swap s i j = Some s' ->
       bySortID_Len s' = bySortID_Len s
       /\ s' !! i = s !! j
       /\ s' !! j = s !! i
       /\ (forall k, k <> i -> k <> j -> s' !! k = s !! k)
       /\ s' ≡ₚ s
       /\ bySortID_Swap s' i j = Some s.
Proof.
  unfold bySortID_Swap, bySortID_Len. split.
  - destruct (s !! i) as [a|] eqn:Hi; [destruct (s !! j) as [b|] eqn:Hj|].
    + apply lookup_lt_Some in Hi, Hj. split; [discriminate | lia].
    + apply lookup_ge_None in Hj. split; [right; exact Hj | reflexivity].
    + apply lookup_ge_None in Hi. split; [left; exact Hi | reflexivity].
  - intros s' H.
    destruct (s !! i) as [a|] eqn:Hi; [|discriminate].
    destruct (s !! j) as [b|] eqn:Hj; [|discriminate].
    inversion H; subst s'; clear H.
    pose proof (lookup_lt_Some _ _ _ Hi) as Hli. pose proof (lookup_lt_Some _ _ _ Hj) as Hlj.
    assert (Hat_j : (<[j:=a]> (<[i:=b]> s)) !! j = Some a)
      by (apply list_lookup_insert_eq; rewrite length_insert; exact Hlj).
    assert (Hat_i : (<[j:=a]> (<[i:=b]> s)) !! i = Some b).
    { destruct (decide (j = i)) as [->|Hne].
      - rewrite Hat_j. congruence.
      - rewrite list_lookup_insert_ne by exact Hne.
        apply list_lookup_insert_eq; exact Hli. }
    assert (Hothers : forall k, k <> i -> k <> j -> (<[j:=a]> (<[i:=b]> s)) !! k = s !! k).
    { intros k Hki Hkj. rewrite !list_lookup_insert_ne by congruence. reflexivity. }
    assert (Hlen : length (<[j:=a]> (<[i:=b]> s)) = length s)
      by (rewrite !length_insert; reflexivity).
    split; [exact Hlen|]. split; [congruence|]. split; [congruence|].
    split; [exact Hothers|]. split.
    + apply Permutation_inj. split; [exact Hlen|].
      exists (fun k => if decide (k = i) then j else if decide (k = j) then i else k).
      split.
      * intros x y Hxy. repeat case_decide; subst; congruence.
      * intros k. repeat case_decide; subst; try congruence. apply Hothers; assumption.
    + rewrite Hat_i, Hat_j. f_equal.
      apply list_eq. intros k.
      destruct (decide (k = j)) as [->|Hkj].
      * rewrite list_lookup_insert_eq by (rewrite length_insert, Hlen; exact Hlj). congruence.
      * rewrite list_lookup_insert_ne by congruence.
        destruct (decide (k = i)) as [->|Hki].
        -- rewrite list_lookup_insert_eq by (rewrite Hlen; exact Hli). congruence.
        -- rewrite list_lookup_insert_ne by congruence. apply Hothers; assumption.
Qed.

Lemma bySortID_Swap_exchanges_witness :
  bySortID_Swap [Shelf.cherry; Shelf.apple; Shelf.berry] 0 2
    = Some [Shelf.berry; Shelf.apple; Shelf.cherry]
  /\ [Shelf.berry; Shelf.apple; Shelf.cherry] ≡ₚ [Shelf.cherry; Shelf.apple; Shelf.berry]
  /\ bySortID_Swap [Shelf.cherry; Shelf.apple; Shelf.berry] 0 3 = None.
Proof.
  split; [reflexivity|]. split.
  - apply (proj2 (bySortID_Swap_exchanges [Shelf.cherry; Shelf.apple; Shelf.berry] 0 2)
             [Shelf.berry; Shelf.apple; Shelf.cherry] eq_refl).
  - apply (proj1 (bySortID_Swap_exchanges [Shelf.cherry; Shelf.apple; Shelf.berry] 0 3)).
    right. cbn. lia.
Defined.

(** X19.  Less panics exactly when an index is out of range; within
    range it is the strict order of the sort keys: no item is less than
    itself, two items are never less than each other, it is transitive,
    and so is being neither less nor greater, which is having the same
    SortId. *)
Theorem bySortID_Less_strict_weak (s : list Item) :
  (forall i j, bySortID_Less s i j = None <-> (bySortID_Len s <= i \/ bySortID_Len s <= j)%nat)
  /\ (forall i, (i < bySortID_Len s)%nat -> bySortID_Less s i i = Some false)
  /\ (forall i j, bySortID_Less s i j = Some true -> bySortID_Less s j i = Some false)
  /\ (forall i j k,
        bySortID_Less s i j = Some true -> bySortID_Less s j k = Some true ->
        bySortID_Less s i k = Some true)
  /\ (forall i j a b,
        s !! i = Some a -> s !! j = Some b ->
        (bySortID_Less s i j = Some false /\ bySortID_Less s j i = Some false
         <-> SortId a = SortId b)).
Proof.
  unfold bySortID_Less, bySortID_Len. split; [|split; [|split; [|split]]].
  - intros i j.
    destruct (s !! i) as [a|] eqn:Hi; [destruct (s !! j) as [b|] eqn:Hj|].
    + apply lookup_lt_Some in Hi, Hj. split; [discriminate | lia].
    + apply lookup_ge_None in Hj. split; [right; exact Hj | reflexivity].
    + apply lookup_ge_None in Hi. split; [left; exact Hi | reflexivity].
  - intros i Hi. destruct (lookup_lt_is_Some_2 s i Hi) as [a ->].
    rewrite Z.ltb_irrefl. reflexivity.
  - intros i j H. destruct (s !! i) as [a|], (s !! j) as [b|]; try discriminate.
    assert (Hlt : (SortId a <? SortId b) = true) by congruence.
    apply Z.ltb_lt in Hlt. f_equal. apply Z.ltb_ge. lia.
  - intros i j k Hij Hjk.
    destruct (s !! i) as [a|], (s !! j) as [b|], (s !! k) as [c|]; try discriminate.
    assert (H1 : (SortId a <? SortId b) = true) by congruence.
    assert (H2 : (SortId b <? SortId c) = true) by congruence.
    apply Z.ltb_lt in H1, H2. f_equal. apply Z.ltb_lt. lia.
  - intros i j a b -> ->. split.
    + intros [H1 H2].
      assert (H1' : (SortId a <? SortId b) = false) by congruence.
      assert (H2' : (SortId b <? SortId a) = false) by congruence.
      apply Z.ltb_ge in H1', H2'. lia.
    + intros Heq. rewrite Heq, Z.ltb_irrefl. split; reflexivity.
Qed.

(** ** File handles *)

Lemma served_no_files (reqs : list string) (evs : list event) (pending : option (list string)) :
  serve_until_signal reqs = (evs, pending) ->
  List.filter opens_file evs = [] /\ List.filter closes_file evs = [].
Proof.
  intros H. pose proof (serve_until_signal_events _ _ _ H) as Hev. clear H.
  induction Hev as [|e evs He _ [IH1 IH2]]; [split; reflexivity|].
  destruct e; try contradiction; split; assumption.
Qed.

(** X20.  In every run of restoreAccessToken each handle on a file
    that was opened or created is closed again, once, before the call
    ends: the log holds as many closes as successful opens and creates,
    also when decoding or encoding fails. *)
Theorem restoreAccessToken_closes_files (E : Env) (consumerKey : string) (w : world) :
  length (List.filter closes_file (events_of (restoreAccessToken E consumerKey w)))
  = length (List.filter opens_file (events_of (restoreAccessToken E consumerKey w)))
  /\ (length (List.filter opens_file (events_of (restoreAccessToken E consumerKey w)))
      <= 2)%nat.
Proof.
  destruct (loadJSONFromFile E (authFile E) Authorization_zero w) as [[o1 w1] evs1] eqn:Hload.
  assert (Hl : exists v err,
             o1 = Ret (v, err) /\ w1 = w
             /\ length (List.filter closes_file evs1)
                = length (List.filter opens_file evs1)
             /\ (length (List.filter opens_file evs1) <= 1)%nat).
  { rewrite loadJSONFromFile_run in Hload.
    destruct (open_error E (authFile E));
      [|destruct (files w !! authFile E) as [f|];
        [destruct (json_decode E (data f) Authorization_zero) as [v' err']|]];
      inversion Hload; subst; eexists _, _;
      (split; [reflexivity|]); (split; [reflexivity|]); cbn; lia. }
  destruct Hl as (v & err & -> & -> & Hbal & Hone).
  destruct err as [e|].
  2:{ rewrite (restoreAccessToken_hit _ _ _ _ _ _ Hload). unfold events_of; cbn [snd]. lia. }
  rewrite (restoreAccessToken_miss _ _ _ _ _ _ _ Hload).
  rewrite obtainAccessToken_run. cbv zeta.
  destruct (auth_ObtainRequestToken E consumerKey (server_URL E)) as [rt|err].
  2:{ unfold events_of; cbn [snd].
      repeat (first [rewrite List.filter_app | rewrite length_app
                    | progress cbn [List.filter opens_file closes_file app length]]).
      lia. }
  destruct (serve_until_signal (requests w)) as [served [rest|]] eqn:Hserve;
    destruct (served_no_files _ _ _ Hserve) as [Hso Hsc].
  2:{ unfold events_of; cbn [snd].
      repeat (first [rewrite List.filter_app | rewrite length_app | rewrite Hso | rewrite Hsc
                    | progress cbn [List.filter opens_file closes_file app length]]).
      lia. }
  destruct (auth_ObtainAccessToken E consumerKey rt) as [a|err].
  - rewrite saveJSONToFile_run. cbv zeta.
    destruct (create_error E (authFile E)); [|destruct (write_error E (authFile E))];
      unfold events_of; cbn [snd];
      repeat (first [rewrite List.filter_app | rewrite length_app | rewrite Hso | rewrite Hsc
                    | progress cbn [List.filter opens_file closes_file app length]]);
      lia.
  - unfold events_of; cbn [snd].
    repeat (first [rewrite List.filter_app | rewrite length_app | rewrite Hso | rewrite Hsc
                  | progress cbn [List.filter opens_file closes_file app length]]).
    lia.
Qed.
